(** * Stream-routing broker core: RoundRobin, FanIn, FanOutSequential,
    Retry and DynamicFanIn.

    Every goroutine of the Go sources is embedded as a program counter over
    its blocking points (the [select] statements and the loop heads), and a
    component is the product of its goroutines and of the memory they share.
    A step is labelled by the event that resolves the blocking point: which
    [select] branch fired, what the peer delivered, which caller moved.  The
    step functions are executable, so a schedule is a list of events that
    [run] replays. *)

From Stdlib Require Import ZArith Lia.
From stdpp Require Import base option list gmap strings.

Set Default Proof Using "Type".

(** ** Schedules *)

Section Schedules.
Context {state event : Type}.
Variable step : state -> event -> option state.

Fixpoint run (s : state) (evs : list event) : option state :=
  match evs with
  | [] => Some s
  | e :: evs' =>
      match step s e with
      | Some s' => run s' evs'
      | None => None
      end
  end.

Lemma run_app s evs1 evs2 :
  run s (evs1 ++ evs2) =
  match run s evs1 with Some s' => run s' evs2 | None => None end.
Proof.
  revert s. induction evs1 as [|e evs1 IH]; intros s; simpl; [done|].
  destruct (step s e); [apply IH | done].
Qed.

Lemma run_snoc s evs e :
  run s (evs ++ [e]) =
  match run s evs with Some s' => step s' e | None => None end.
Proof.
  rewrite run_app. destruct (run s evs) as [s'|]; [|done].
  simpl. by destruct (step s' e).
Qed.

Lemma run_split s pre e post s' :
  run s (pre ++ e :: post) = Some s' ->
  exists s1 s2, run s pre = Some s1 /\ step s1 e = Some s2 /\
                run s2 post = Some s'.
Proof.
  rewrite run_app. destruct (run s pre) as [s1|]; [|done]. simpl.
  destruct (step s1 e) as [s2|] eqn:He; [|done]. eauto.
Qed.

(** Induction along a schedule, from its start. *)
Lemma run_ind (s0 : state) (P : list event -> state -> Prop) :
  P [] s0 ->
  (forall evs s e s',
      run s0 evs = Some s -> P evs s -> step s e = Some s' ->
      P (evs ++ [e]) s') ->
  forall evs s, run s0 evs = Some s -> P evs s.
Proof.
  intros Hinit Hstep evs.
  induction evs as [|e evs IH] using rev_ind; intros s Hrun.
  - simpl in Hrun. by simplify_eq.
  - rewrite run_snoc in Hrun.
    destruct (run s0 evs) as [s1|] eqn:Hrun1; [|done].
    eapply Hstep; eauto.
Qed.
End Schedules.

(** ** Messages, errors and transactions (package [message], [component]) *)

Record Part := mkPart { part_data : string; part_meta : list (string * string) }.

Definition Batch := list Part.

(** A channel is known by its identity.  [ProducerChan] channels are made by
    the producers that feed a broker, [MadeChan n] is the channel returned by
    the [n]-th [make(chan error)] of the component under study. *)
Inductive chan :=
  | ProducerChan (n : nat)
  | MadeChan (n : nat).

(** Go's [error] values; [nil] is [None] in an [option error]. *)
Inductive error :=
  | ErrTimeout
  | ErrTypeClosed
  | ErrAlreadyStarted
  | ErrNew (msg : string).

(** [message.NewTransaction(payload, resChan)]. *)
Record Transaction := NewTransaction { Payload : Batch; responseChan : chan }.

#[global] Instance Part_eq_dec : EqDecision Part.
Proof. solve_decision. Defined.
#[global] Instance chan_eq_dec : EqDecision chan.
Proof. solve_decision. Defined.
#[global] Instance error_eq_dec : EqDecision error.
Proof. solve_decision. Defined.
#[global] Instance Transaction_eq_dec : EqDecision Transaction.
Proof. solve_decision. Defined.

(** Ceiling of [a / b] for [0 < b] ([Z.div] rounds down). *)
Definition ceil_div (a b : Z) : Z := (- ((- a) / b))%Z.

Lemma ceil_div_deal (q c i N : nat) :
  c < N -> i < N ->
  ceil_div (Z.of_nat (q * N + c) - Z.of_nat i) (Z.of_nat N) =
  Z.of_nat (q + (if decide (i < c) then 1 else 0)).
Proof.
  intros Hc Hi. unfold ceil_div.
  destruct (decide (i < c)) as [Hlt|Hge].
  - assert (- (Z.of_nat (q * N + c) - Z.of_nat i) / Z.of_nat N
            = - Z.of_nat q - 1)%Z as ->; [|lia].
    symmetry.
    apply (Z.div_unique_pos _ _ _ (Z.of_nat N - (Z.of_nat c - Z.of_nat i))%Z);
      nia.
  - assert (- (Z.of_nat (q * N + c) - Z.of_nat i) / Z.of_nat N
            = - Z.of_nat q)%Z as ->; [|lia].
    symmetry.
    apply (Z.div_unique_pos _ _ _ (Z.of_nat i - Z.of_nat c)%Z); nia.
Qed.

(** * RoundRobin (broker/round_robin.go) *)

Module RoundRobin.

(** Blocking points of [RoundRobin.loop]. *)
Inductive loop_pc :=
  | LNotStarted                 (* [Consume] has not been called *)
  | LHead                       (* about to test [running == 1] *)
  | LRecv                       (* first select: inbound / closeChan *)
  | LSend (ts : Transaction)    (* second select: outputTSChans[i] <- ts / closeChan *)
  | LPanicked                   (* index out of range: no outputs *)
  | LExited.                    (* returned, deferred function done *)

Record state := mkState {
  running : bool;                           (* [o.running == 1] *)
  closePending : bool;                      (* a [CloseAsync] won the CAS, has not closed yet *)
  closeChan : bool;                         (* [o.closeChan] is closed *)
  inClosed : bool;                          (* the inbound channel is closed *)
  cursor : nat;                             (* the local [i] of [loop] *)
  pc : loop_pc;
  outputTSChans : list (list Transaction);  (* what each output channel carried, oldest first *)
  chanCloses : list nat;                    (* [close] calls made on each output channel *)
  closedChan : bool                         (* [o.closedChan] is closed *)
}.

Inductive event :=
  | Consume                     (* [Consume(ts)]: [go o.loop()] on the first call *)
  | CloseAsyncCAS               (* [CompareAndSwapInt32(&o.running, 1, 0)] *)
  | CloseAsyncClose             (* [close(o.closeChan)] by the caller that won the CAS *)
  | ProducerClose               (* the producer closes the inbound channel *)
  | LoopCond                    (* the loop reads [o.running] *)
  | Recv (ts : Transaction)     (* first select takes [ts] from the inbound channel *)
  | RecvClosed                  (* first select finds the inbound channel closed *)
  | SeeClose                    (* a select takes the [closeChan] branch *)
  | Sent.                       (* output [i] takes the offered transaction *)

(** [NewRoundRobin(outputs, stats)] with [n = len(outputs)]. *)
Definition NewRoundRobin (n : nat) : state :=
  {| running := true; closePending := false; closeChan := false;
     inClosed := false; cursor := 0; pc := LNotStarted;
     outputTSChans := replicate n []; chanCloses := replicate n 0;
     closedChan := false |}.

Definition set_pc (p : loop_pc) (s : state) : state :=
  {| running := running s; closePending := closePending s;
     closeChan := closeChan s; inClosed := inClosed s; cursor := cursor s;
     pc := p; outputTSChans := outputTSChans s; chanCloses := chanCloses s;
     closedChan := closedChan s |}.

(** The deferred function of [loop]: close every output channel, then
    [closedChan]. *)
Definition loop_exit (s : state) : state :=
  {| running := running s; closePending := closePending s;
     closeChan := closeChan s; inClosed := inClosed s; cursor := cursor s;
     pc := LExited; outputTSChans := outputTSChans s;
     chanCloses := S <$> chanCloses s;
     closedChan := true |}.

(** [i++; if i >= len(o.outputTSChans) { i = 0 }] *)
Definition advance (n i : nat) : nat :=
  if decide (n <= S i) then 0 else S i.

Definition deliver (ts : Transaction) (s : state) : state :=
  {| running := running s; closePending := closePending s;
     closeChan := closeChan s; inClosed := inClosed s;
     cursor := advance (length (outputTSChans s)) (cursor s);
     pc := LHead;
     outputTSChans :=
       alter (fun out => out ++ [ts]) (cursor s) (outputTSChans s);
     chanCloses := chanCloses s;
     closedChan := closedChan s |}.

Definition step (s : state) (e : event) : option state :=
  match e, pc s with
  | Consume, LNotStarted => Some (set_pc LHead s)
  | Consume, _ => Some s                          (* ErrAlreadyStarted *)
  | CloseAsyncCAS, _ =>
      if running s then
        Some {| running := false; closePending := true;
                closeChan := closeChan s; inClosed := inClosed s;
                cursor := cursor s; pc := pc s;
                outputTSChans := outputTSChans s;
                chanCloses := chanCloses s; closedChan := closedChan s |}
      else Some s
  | CloseAsyncClose, _ =>
      if closePending s then
        Some {| running := running s; closePending := false;
                closeChan := true; inClosed := inClosed s;
                cursor := cursor s; pc := pc s;
                outputTSChans := outputTSChans s;
                chanCloses := chanCloses s; closedChan := closedChan s |}
      else None
  | ProducerClose, _ =>
      if inClosed s then None
      else Some {| running := running s; closePending := closePending s;
                   closeChan := closeChan s; inClosed := true;
                   cursor := cursor s; pc := pc s;
                   outputTSChans := outputTSChans s;
                   chanCloses := chanCloses s; closedChan := closedChan s |}
  | LoopCond, LHead =>
      if running s then Some (set_pc LRecv s) else Some (loop_exit s)
  | Recv ts, LRecv =>
      if inClosed s then None
      else if decide (cursor s < length (outputTSChans s))
           then Some (set_pc (LSend ts) s)
           else Some (set_pc LPanicked s)
  | RecvClosed, LRecv =>
      if inClosed s then Some (loop_exit s) else None
  | SeeClose, LRecv =>
      if closeChan s then Some (loop_exit s) else None
  | SeeClose, LSend _ =>
      if closeChan s then Some (loop_exit s) else None
  | Sent, LSend ts => Some (deliver ts s)
  | _, _ => None
  end.

(** The transactions a schedule takes from the inbound channel, and the
    number of hand-overs to an output. *)
Definition inbound (evs : list event) : list Transaction :=
  omap (fun e => match e with Recv ts => Some ts | _ => None end) evs.

#[global] Instance loop_pc_eq_dec : EqDecision loop_pc.
Proof. solve_decision. Defined.
#[global] Instance event_eq_dec : EqDecision event.
Proof. solve_decision. Defined.

Definition handovers (evs : list event) : nat :=
  length (filter (fun e => e = Sent) evs).

(** The transactions handed to an output so far: all that were taken from
    the inbound channel, but the one still on offer (or cut off by the
    close signal while on offer). *)
Definition forwarded (evs : list event) : list Transaction :=
  take (handovers evs) (inbound evs).

Lemma inbound_snoc evs e :
  inbound (evs ++ [e]) =
  inbound evs ++ match e with Recv ts => [ts] | _ => [] end.
Proof. unfold inbound. rewrite omap_app. by destruct e. Qed.

Lemma handovers_snoc evs e :
  handovers (evs ++ [e]) = handovers evs + (if decide (e = Sent) then 1 else 0).
Proof.
  unfold handovers. rewrite filter_app, length_app. f_equal.
  rewrite filter_cons, filter_nil. by destruct (decide (e = Sent)).
Qed.

Section Distribution.
Variable N : nat.
Hypothesis HN : 1 <= N.

(** [fwd] has been dealt over the [N] outputs, [q] full rounds and
    [cursor] more. *)
Record dealt (fwd : list Transaction) (s : state) : Prop := {
  dealt_len : length (outputTSChans s) = N;
  dealt_cur : cursor s < N;
  dealt_out : exists q,
    length fwd = q * N + cursor s /\
    forall i out, outputTSChans s !! i = Some out ->
      length out = q + (if decide (i < cursor s) then 1 else 0) /\
      forall k ts, out !! k = Some ts -> fwd !! (k * N + i) = Some ts
}.

Lemma dealt_init : dealt [] (NewRoundRobin N).
Proof using HN.
  split; simpl; [by rewrite length_replicate | lia |].
  exists 0. split; [done|]. intros i out [-> Hi]%lookup_replicate.
  split; [by destruct (decide (i < 0)); [lia|] | by intros k ts].
Qed.

Lemma dealt_deliver fwd s ts :
  dealt fwd s -> dealt (fwd ++ [ts]) (deliver ts s).
Proof using HN.
  intros [Hlen Hcur [q [Hq Hout]]].
  split; simpl.
  - by rewrite length_alter.
  - unfold advance. case_decide; lia.
  - rewrite Hlen. unfold advance.
    destruct (decide (N <= S (cursor s))) as [Hwrap|Hnowrap].
    + exists (S q). split; [rewrite length_app; simpl; lia|].
      intros i out Hi.
      assert (i < N) as HiN.
      { apply lookup_lt_Some in Hi. by rewrite length_alter, Hlen in Hi. }
      destruct (decide (i < 0)); [lia|].
      destruct (decide (i = cursor s)) as [->|Hne].
      * rewrite list_lookup_alter_eq in Hi.
        destruct (outputTSChans s !! cursor s) as [out0|] eqn:Hout0;
          [|done].
        simpl in Hi. injection Hi as <-.
        destruct (Hout _ _ Hout0) as [Hl Hk].
        destruct (decide (cursor s < cursor s)); [lia|].
        split; [rewrite length_app; simpl; lia|].
        intros k x [[Hlt Hx]|[-> ->]]%lookup_snoc_Some.
        -- apply lookup_app_l_Some. eauto.
        -- rewrite lookup_app_r by lia.
           replace (length out0 * N + cursor s - length fwd) with 0 by lia.
           done.
      * rewrite list_lookup_alter_ne in Hi by done.
        destruct (Hout _ _ Hi) as [Hl Hk].
        destruct (decide (i < cursor s)); [|lia].
        split; [lia|]. intros k x Hx. apply lookup_app_l_Some. eauto.
    + exists q. split; [rewrite length_app; simpl; lia|].
      intros i out Hi.
      destruct (decide (i = cursor s)) as [->|Hne].
      * rewrite list_lookup_alter_eq in Hi.
        destruct (outputTSChans s !! cursor s) as [out0|] eqn:Hout0;
          [|done].
        simpl in Hi. injection Hi as <-.
        destruct (Hout _ _ Hout0) as [Hl Hk].
        destruct (decide (cursor s < cursor s)); [lia|].
        destruct (decide (cursor s < S (cursor s))); [|lia].
        split; [rewrite length_app; simpl; lia|].
        intros k x [[Hlt Hx]|[-> ->]]%lookup_snoc_Some.
        -- apply lookup_app_l_Some. eauto.
        -- rewrite lookup_app_r by lia.
           replace (length out0 * N + cursor s - length fwd) with 0 by lia.
           done.
      * rewrite list_lookup_alter_ne in Hi by done.
        destruct (Hout _ _ Hi) as [Hl Hk].
        split.
        -- rewrite Hl. destruct (decide (i < cursor s));
             destruct (decide (i < S (cursor s))); lia.
        -- intros k x Hx. apply lookup_app_l_Some. eauto.
Qed.

(** Where the last inbound transaction is, by program counter. *)
Definition in_step (evs : list event) (s : state) : Prop :=
  match pc s with
  | LSend ts => inbound evs = forwarded evs ++ [ts]
  | LExited => length (inbound evs) <= S (handovers evs)
  | LPanicked => False
  | _ => handovers evs = length (inbound evs)
  end.

Record loop_inv (evs : list event) (s : state) : Prop := {
  inv_le : handovers evs <= length (inbound evs);
  inv_pc : in_step evs s;
  inv_dealt : dealt (forwarded evs) s
}.

Lemma loop_inv_run evs s :
  run step (NewRoundRobin N) evs = Some s -> loop_inv evs s.
Proof using HN.
  revert evs s. apply run_ind.
  { split; [done | done | apply dealt_init]. }
  intros evs s e s' _ [Hle Hpc Hd] Hstep.
  assert (forall p, dealt (forwarded evs) (set_pc p s)) as Hset.
  { intros p. destruct Hd. by split. }
  assert (dealt (forwarded evs) (loop_exit s)) as Hexit.
  { destruct Hd. by split. }
  pose proof (handovers_snoc evs e) as Hh.
  pose proof (inbound_snoc evs e) as Hi.
  unfold in_step in Hpc. unfold step in Hstep.
  destruct (decide (e = Sent)) as [->|Hne].
  - (* the hand-over *)
    destruct (pc s) eqn:Epc; try done. simplify_eq.
    rewrite app_nil_r in Hi.
    assert (forwarded (evs ++ [Sent]) = forwarded evs ++ [ts]) as Hfwd.
    { unfold forwarded at 1. rewrite Hh, Hi, Hpc.
      rewrite take_ge; [done|].
      rewrite length_app. unfold forwarded. rewrite length_take. simpl. lia. }
    assert (length (inbound evs) = S (handovers evs)) as Hlen.
    { rewrite Hpc, length_app. unfold forwarded. rewrite length_take.
      simpl. lia. }
    split.
    + rewrite Hh, Hi. lia.
    + unfold in_step. simpl. rewrite Hh, Hi. lia.
    + rewrite Hfwd. by apply dealt_deliver.
  - assert (forwarded (evs ++ [e]) = forwarded evs) as Hfwd.
    { unfold forwarded. rewrite Hh, Hi, Nat.add_0_r. by rewrite take_app_le. }
    rewrite Nat.add_0_r in Hh.
    destruct e; try done; destruct (pc s) eqn:Epc; simpl in Hstep;
      repeat case_match; simplify_eq.
    all: try done.
    all: rewrite ?app_nil_r in Hi.
    all: try (split; [ rewrite Hh, Hi; lia
                    | unfold in_step; simpl; rewrite ?Epc, Hh, Hi; simpl; lia
                    | rewrite Hfwd;
                      first [ apply Hset | apply Hexit | done
                            | destruct Hd; by split ] ]; fail).
    all: try (split;
              [ rewrite Hh, Hi; lia
              | unfold in_step; simpl; rewrite ?Epc; by rewrite Hfwd, Hi
              | rewrite Hfwd; first [ done | destruct Hd; by split ] ]; fail).
    + (* Recv, an output is there *)
      split.
      * rewrite Hh, Hi, length_app. simpl. lia.
      * unfold in_step. simpl. rewrite Hfwd, Hi. f_equal.
        unfold forwarded. by rewrite Hpc, firstn_all.
      * rewrite Hfwd. apply Hset.
    + (* Recv, no output: excluded by [cursor < N] *)
      destruct Hd as [Hlen Hcur _]. lia.
    + (* SeeClose while a transaction is on offer *)
      split.
      * rewrite Hh, Hi. lia.
      * unfold in_step. simpl. rewrite Hh, Hi, Hpc, length_app.
        unfold forwarded. rewrite length_take. simpl. lia.
      * rewrite Hfwd. apply Hexit.
Qed.
(** A transaction that was taken and is not handed over when [loop] has
    returned was on offer when the close signal fired. *)
Lemma cut_off_run evs s :
  run step (NewRoundRobin N) evs = Some s ->
  pc s = LExited -> handovers evs < length (inbound evs) ->
  closeChan s = true.
Proof using HN.
  revert evs s.
  apply (run_ind step _
           (fun evs s => pc s = LExited ->
                         handovers evs < length (inbound evs) ->
                         closeChan s = true)); [done|].
  intros evs s e s' Hrun IH Hstep Hpc Hlt.
  destruct (loop_inv_run _ _ Hrun) as [_ Hin _]. unfold in_step in Hin.
  rewrite handovers_snoc, inbound_snoc, length_app in Hlt.
  unfold step in Hstep.
  destruct e; destruct (pc s) eqn:Epc; simpl in Hstep;
    repeat case_match; simplify_eq; simpl in *; try done; try lia;
    try congruence; try (apply IH; [done|lia]).
Qed.

(** C2, as the code has it.  RoundRobin over [N >= 1] outputs hands a
    transaction it took from the inbound channel, as it came (same
    payload, same AckSink), to at most one output: the [j]-th one handed
    over goes to output [j mod N], as the [j / N]-th transaction of that
    output, the cursor starting at output 0 and advancing by one modulo
    [N].  So when [M] transactions have been handed over, output [i] has
    received exactly [ceil ((M - i) / N)] of them, in inbound order.  The
    transactions handed over are all that were taken but at most the last
    one: that one is still on offer to its output, or [loop] has returned
    on the close signal while it was on offer, and it reaches no output. *)
Theorem round_robin_deals_in_turn evs s :
  run step (NewRoundRobin N) evs = Some s ->
  let fwd := forwarded evs in
  let M := length fwd in
  M = handovers evs /\
  (fwd = inbound evs \/
   exists ts, inbound evs = fwd ++ [ts] /\
              (pc s = LSend ts \/ (pc s = LExited /\ closeChan s = true))) /\
  cursor s = M mod N /\
  (forall j ts, fwd !! j = Some ts ->
     exists out, outputTSChans s !! (j mod N) = Some out /\
                 out !! (j / N) = Some ts) /\
  (forall i out, outputTSChans s !! i = Some out ->
     i < N /\
     Z.of_nat (length out) =
       ceil_div (Z.of_nat M - Z.of_nat i) (Z.of_nat N) /\
     forall k ts, out !! k = Some ts -> fwd !! (k * N + i) = Some ts).
Proof using HN.
  intros Hrun fwd M.
  destruct (loop_inv_run _ _ Hrun) as [Hle Hpc [Hlen Hcur [q [Hq Hout]]]].
  fold fwd in Hq, Hout. fold M in Hq.
  assert (M = handovers evs) as HM.
  { unfold M, fwd, forwarded. rewrite length_take. lia. }
  split; [done|]. split; [|split; [|split]].
  - unfold in_step in Hpc.
    assert (handovers evs = length (inbound evs) -> fwd = inbound evs) as Hall.
    { intros Heq. unfold fwd, forwarded. apply take_ge. lia. }
    destruct (pc s) eqn:Epc; try (left; by apply Hall); try done.
    + right. exists ts. eauto.
    + destruct (decide (handovers evs = length (inbound evs))) as [Heq|Hneq];
        [left; by apply Hall|].
      right.
      destruct (inbound evs !! handovers evs) as [ts|] eqn:Hlast.
      * exists ts. split.
        -- unfold fwd, forwarded.
           rewrite <- (take_S_r _ _ _ Hlast). symmetry. apply take_ge. lia.
        -- right. split; [done|]. eapply cut_off_run; [done | done | lia].
      * apply lookup_ge_None in Hlast. lia.
  - apply (Nat.mod_unique _ _ q); lia.
  - intros j ts Hj.
    pose proof (lookup_lt_Some _ _ _ Hj) as Hjlt. fold M in Hjlt.
    pose proof (Nat.div_mod_eq j N) as Hdm.
    pose proof (Nat.mod_upper_bound j N ltac:(lia)) as Hmod.
    destruct (outputTSChans s !! (j mod N)) as [out|] eqn:Ho.
    2:{ apply lookup_ge_None in Ho. lia. }
    exists out. split; [done|].
    destruct (Hout _ _ Ho) as [Hl Hk].
    destruct (out !! (j / N)) as [x|] eqn:Hx.
    + apply Hk in Hx.
      replace (j `div` N * N + j `mod` N) with j in Hx by lia. congruence.
    + apply lookup_ge_None in Hx.
      destruct (decide (j `mod` N < cursor s)); nia.
  - intros i out Ho.
    pose proof (lookup_lt_Some _ _ _ Ho) as Hi. rewrite Hlen in Hi.
    destruct (Hout _ _ Ho) as [Hl Hk].
    split; [done|]. split; [|done].
    rewrite Hl, Hq. symmetry. by apply ceil_div_deal.
Qed.
End Distribution.

(** *** Shutdown of the output channels *)

(** [CloseAsync] raises the close signal by swapping [running] to 0; the
    closed [closeChan] follows from the same call. *)
Definition close_raised (s : state) : Prop := running s = false.

Record close_inv (n : nat) (s : state) : Prop := {
  ci_pending : closePending s = true -> running s = false;
  ci_chan : closeChan s = true -> running s = false;
  ci_open : pc s <> LExited -> chanCloses s = replicate n 0;
  ci_exited : pc s = LExited ->
    chanCloses s = replicate n 1 /\ (inClosed s = true \/ close_raised s)
}.

Lemma close_inv_run n evs s :
  run step (NewRoundRobin n) evs = Some s -> close_inv n s.
Proof.
  revert evs s. apply run_ind.
  { by split. }
  intros evs s e s' _ [Hp Hc Ho Hx] Hstep. unfold step in Hstep.
  destruct e; destruct (pc s) eqn:Epc; simpl in Hstep;
    repeat case_match; simplify_eq;
    split; unfold close_raised in *; simpl in *; rewrite ?Epc in *;
    try (intuition congruence).
  all: intros _; rewrite Ho by done; rewrite fmap_replicate; by auto.
Qed.


(** Two outputs, three transactions, then shutdown. *)
Definition tx (n : nat) : Transaction :=
  NewTransaction [mkPart "hello world" []] (ProducerChan n).

Definition three_in : list event :=
  [Consume; LoopCond; Recv (tx 0); Sent; LoopCond; Recv (tx 1); Sent;
   LoopCond; Recv (tx 2); Sent; CloseAsyncCAS; LoopCond].

Definition after_three_in : state :=
  {| running := false; closePending := true; closeChan := false;
     inClosed := false; cursor := 1; pc := LExited;
     outputTSChans := [[tx 0; tx 2]; [tx 1]]; chanCloses := [1; 1];
     closedChan := true |}.

Lemma exited_outputs s evs s' :
  pc s = LExited -> run step s evs = Some s' ->
  pc s' = LExited /\ outputTSChans s' = outputTSChans s.
Proof.
  intros Hpc. revert evs s'. apply run_ind; [done|].
  intros evs s1 e s2 _ [Hp Ho] Hstep. unfold step in Hstep.
  rewrite Hp in Hstep.
  destruct e; simpl in Hstep; repeat case_match; by simplify_eq.
Qed.

(** Two outputs; the close signal fires while the third transaction is
    on offer to output 0. *)
Definition third_cut : list event :=
  [Consume; LoopCond; Recv (tx 0); Sent; LoopCond; Recv (tx 1); Sent;
   LoopCond; Recv (tx 2); CloseAsyncCAS; CloseAsyncClose; SeeClose].

Definition after_third_cut : state :=
  Eval vm_compute in
    default (NewRoundRobin 2) (run step (NewRoundRobin 2) third_cut).

(** C2, as stated, fails: three transactions are taken from the inbound
    channel, the first two are handed to outputs 0 and 1, and the close
    signal fires while the third is on offer to output 0; [loop] returns,
    and the third transaction reaches no output, ever.  Output 0 has one
    transaction, not [ceil ((3 - 0) / 2) = 2]. *)
Lemma round_robin_drops_on_close :
  run step (NewRoundRobin 2) third_cut = Some after_third_cut /\
  inbound third_cut = [tx 0; tx 1; tx 2] /\
  outputTSChans after_third_cut = [[tx 0]; [tx 1]] /\
  ceil_div (3 - 0) 2 = 2%Z /\
  pc after_third_cut = LExited /\
  forall evs s', run step after_third_cut evs = Some s' ->
                 outputTSChans s' = [[tx 0]; [tx 1]].
Proof.
  split; [vm_compute; reflexivity|]. split; [reflexivity|].
  split; [reflexivity|]. split; [reflexivity|]. split; [reflexivity|].
  intros evs s' Hrun.
  by destruct (exited_outputs after_third_cut evs s' eq_refl Hrun) as [_ ->].
Qed.

Lemma round_robin_deals_in_turn_witness :
  run step (NewRoundRobin 2) three_in = Some after_three_in /\
  cursor after_three_in = 3 mod 2 /\
  forall i out, outputTSChans after_three_in !! i = Some out ->
    i < 2 /\
    Z.of_nat (length out) = ceil_div (3 - Z.of_nat i) 2 /\
    forall k ts, out !! k = Some ts ->
      [tx 0; tx 1; tx 2] !! (k * 2 + i) = Some ts.
Proof.
  split; [reflexivity|].
  pose proof (round_robin_deals_in_turn 2 ltac:(lia) three_in after_three_in
                eq_refl) as H.
  simpl in H. destruct H as (_ & _ & Hc & _ & Ho). split; [exact Hc | exact Ho].
Defined.

(** *** The rest of the broker's surface *)

(** [RoundRobin.MaxInFlight]; an output is given by what
    [output.GetMaxInFlight] answers for it. *)
Definition MaxInFlight (outputs : list (Z * bool)) : Z * bool :=
  foldl (fun '(m, ok) '(mif, reported) =>
           if reported && (m <? mif)%Z then (mif, true) else (m, ok))
        (0%Z, false) outputs.

Lemma MaxInFlight_fold outputs m0 ok0 :
  let '(m, ok) :=
    foldl (fun '(m, ok) '(mif, reported) =>
             if reported && (m <? mif)%Z then (mif, true) else (m, ok))
          (m0, ok0) outputs in
  (m0 <= m)%Z /\
  (forall mif, (mif, true) ∈ outputs -> (mif <= m)%Z) /\
  ((m = m0 /\ ok = ok0) \/ ((m, true) ∈ outputs /\ ok = true /\ (m0 < m)%Z)).
Proof.
  revert m0 ok0. induction outputs as [|[mif reported] outputs IH];
    intros m0 ok0; simpl.
  { split; [lia|]. split; [by intros mif Hin%elem_of_nil | by left]. }
  destruct (reported && (m0 <? mif)%Z) eqn:Hnew.
  - apply andb_true_iff in Hnew as [-> Hlt%Z.ltb_lt].
    specialize (IH mif true).
    destruct (foldl _ (mif, true) outputs) as [m ok].
    destruct IH as (Hle & Hub & Hcase). split; [lia|]. split.
    + intros mif' [[= ->]|Hin]%elem_of_cons; [done | by apply Hub].
    + right. destruct Hcase as [[-> ->]|(Hin & -> & Hlt')].
      * split; [apply list_elem_of_here | by split].
      * split; [by apply list_elem_of_further | split; [done|lia]].
  - specialize (IH m0 ok0).
    destruct (foldl _ (m0, ok0) outputs) as [m ok].
    destruct IH as (Hle & Hub & Hcase). split; [done|]. split.
    + intros mif' [[= -> <-]|Hin]%elem_of_cons; [|by apply Hub].
      simpl in Hnew. apply Z.ltb_ge in Hnew. lia.
    + destruct Hcase as [?|(Hin & -> & Hlt')]; [by left|].
      right. split; [by apply list_elem_of_further | done].
Qed.

(** [MaxInFlight] answers the largest positive number an output reports,
    with [ok]; without such an output it answers 0 and not [ok]. *)
Theorem MaxInFlight_is_largest_reported outputs :
  let '(m, ok) := MaxInFlight outputs in
  (forall mif, (mif, true) ∈ outputs -> (mif <= m)%Z) /\
  (ok = true <-> exists mif, (mif, true) ∈ outputs /\ (0 < mif)%Z) /\
  (ok = true -> (m, true) ∈ outputs /\ (0 < m)%Z) /\
  (ok = false -> m = 0%Z).
Proof.
  unfold MaxInFlight. pose proof (MaxInFlight_fold outputs 0 false) as H.
  destruct (foldl _ (0%Z, false) outputs) as [m ok].
  destruct H as (Hle & Hub & Hcase). split; [done|].
  split; [|split].
  - split.
    + intros ->. destruct Hcase as [[_ [=]]|(Hin & _ & Hlt)]. eauto.
    + intros (mif & Hin & Hpos). specialize (Hub _ Hin).
      destruct Hcase as [[-> _]|(_ & -> & _)]; [lia | done].
  - intros ->. destruct Hcase as [[_ [=]]|(Hin & _ & Hlt)]. done.
  - intros ->. by destruct Hcase as [[-> _]|(_ & [=] & _)].
Qed.

(** With at least one output, [loop] never indexes [outputTSChans] out of
    range: the cursor stays below the number of outputs. *)
Theorem round_robin_index_in_range N evs s :
  1 <= N ->
  run step (NewRoundRobin N) evs = Some s ->
  pc s <> LPanicked /\ cursor s < length (outputTSChans s) /\
  length (outputTSChans s) = N.
Proof.
  intros HN Hrun.
  destruct (loop_inv_run N HN _ _ Hrun) as [_ Hpc [Hlen Hcur _]].
  split; [|split; [lia | done]].
  intros Hp. unfold in_step in Hpc. by rewrite Hp in Hpc.
Qed.

Lemma round_robin_index_in_range_witness :
  pc after_three_in <> LPanicked /\
  cursor after_three_in < length (outputTSChans after_three_in) /\
  length (outputTSChans after_three_in) = 2.
Proof.
  apply (round_robin_index_in_range 2 three_in after_three_in);
    [lia | vm_compute; reflexivity].
Defined.

Lemma no_outputs_run evs s :
  run step (NewRoundRobin 0) evs = Some s ->
  outputTSChans s = [] /\ (forall ts, pc s <> LSend ts) /\ handovers evs = 0.
Proof.
  revert evs s. apply run_ind; [by repeat split|].
  intros evs s e s' _ (Hout & Hpc & Hh) Hstep.
  rewrite handovers_snoc, Hh. unfold step in Hstep.
  destruct (decide (e = Sent)) as [->|Hne].
  { destruct (pc s) eqn:Epc; try done. by destruct (Hpc ts). }
  destruct e; try done; destruct (pc s) eqn:Epc; simpl in Hstep;
    repeat case_match; simplify_eq; simpl; rewrite ?Epc;
    try (by repeat split).
  exfalso.
  match goal with
  | H : cursor _ < length _ |- _ =>
      pose proof H as Hlt; rewrite Hout in Hlt; simpl in Hlt; lia
  end.
Qed.

(** Without outputs the first transaction taken from the inbound channel
    makes [loop] panic (index out of range), and none is ever handed on. *)
Theorem round_robin_without_outputs evs s ts s' :
  run step (NewRoundRobin 0) evs = Some s ->
  step s (Recv ts) = Some s' ->
  pc s' = LPanicked /\ handovers evs = 0.
Proof.
  intros Hrun Hstep. pose proof (no_outputs_run _ _ Hrun) as (Hout & Hpc & Hh).
  split; [|done].
  unfold step in Hstep. destruct (pc s); try done.
  repeat case_match; simplify_eq; [|done].
  exfalso.
  match goal with
  | H : cursor _ < length _ |- _ =>
      pose proof H as Hlt; rewrite Hout in Hlt; simpl in Hlt; lia
  end.
Qed.

Lemma round_robin_without_outputs_witness :
  exists s s',
    run step (NewRoundRobin 0) [Consume; LoopCond] = Some s /\
    step s (Recv (tx 0)) = Some s' /\ pc s' = LPanicked.
Proof.
  eexists _, _. split; [reflexivity|]. split; [reflexivity|].
  refine (proj1 (round_robin_without_outputs [Consume; LoopCond] _ (tx 0) _
                   eq_refl eq_refl)).
Defined.

(** *** The close signal *)

(** The [close(o.closeChan)] calls of a schedule. *)
Definition close_calls (evs : list event) : nat :=
  length (filter (fun e => e = CloseAsyncClose) evs).

Lemma close_calls_snoc evs e :
  close_calls (evs ++ [e]) =
  close_calls evs + (if decide (e = CloseAsyncClose) then 1 else 0).
Proof.
  unfold close_calls. rewrite filter_app, length_app. f_equal.
  rewrite filter_cons, filter_nil. by destruct (decide (e = CloseAsyncClose)).
Qed.

Lemma close_signal_run n evs s :
  run step (NewRoundRobin n) evs = Some s ->
  close_calls evs = (if closeChan s then 1 else 0) /\
  (closeChan s = true -> closePending s = false /\ running s = false) /\
  (closePending s = true -> running s = false).
Proof.
  revert evs s. apply run_ind; [by repeat split|].
  intros evs s e s' _ (Hn & Hc & Hp) Hstep.
  rewrite close_calls_snoc, Hn. unfold step in Hstep.
  destruct e; destruct (pc s) eqn:Epc; simpl in Hstep;
    repeat case_match; simplify_eq; simpl in *;
    repeat split; try done; try lia; try tauto;
    try (intros; congruence);
    try (destruct Hc as [? ?]; [done|congruence]);
    try (intros Hx; specialize (Hp Hx); congruence).
Qed.

(** However often [CloseAsync] is called, [closeChan] is closed at most
    once: only the call that swaps [running] from 1 to 0 closes it. *)
Theorem close_async_closes_once n evs s :
  run step (NewRoundRobin n) evs = Some s ->
  close_calls evs <= 1 /\
  (close_calls evs = 1 <-> closeChan s = true) /\
  (closeChan s = true -> running s = false).
Proof.
  intros (Hn & Hc & _)%close_signal_run. rewrite Hn.
  destruct (closeChan s); repeat split; try lia; try done.
  intros _. by destruct Hc.
Qed.

Definition closed_twice : list event :=
  [Consume; CloseAsyncCAS; CloseAsyncCAS; CloseAsyncClose; CloseAsyncCAS].

Lemma close_async_closes_once_witness :
  exists s, run step (NewRoundRobin 2) closed_twice = Some s /\
            close_calls closed_twice = 1 /\ closeChan s = true.
Proof.
  eexists. split; [reflexivity|].
  destruct (close_async_closes_once 2 closed_twice _ eq_refl) as (_ & H & _).
  split; [reflexivity|]. by apply H.
Defined.

(** What [loop] can still hand over once [running] is 0. *)
Definition budget (p : loop_pc) : nat :=
  match p with LRecv | LSend _ => 1 | _ => 0 end.

Lemma stopping_run s0 evs s :
  running s0 = false ->
  run step s0 evs = Some s ->
  running s = false /\ handovers evs + budget (pc s) <= budget (pc s0).
Proof.
  intros H0. revert evs s. apply run_ind; [by split|].
  intros evs s e s' _ [Hr Hb] Hstep. rewrite handovers_snoc.
  unfold step in Hstep.
  destruct e; destruct (pc s) eqn:Epc; simpl in Hstep;
    repeat case_match; simplify_eq; simpl in *; rewrite ?Epc in *;
    simpl in *; try congruence; split; try done; lia.
Qed.

(** Once [CloseAsync] has set [running] to 0, [loop] hands at most one
    more transaction to an output: the one it holds, or the one its first
    select still takes; at the next loop head it returns. *)
Theorem round_robin_stops_after_close n pre post s :
  run step (NewRoundRobin n) (pre ++ CloseAsyncCAS :: post) = Some s ->
  running s = false /\ handovers post <= 1.
Proof.
  intros (s1 & s2 & _ & Hcas & Hpost)%run_split.
  assert (running s2 = false) as H2.
  { unfold step in Hcas. destruct (running s) eqn:?; repeat case_match;
      by simplify_eq. }
  destruct (stopping_run _ _ _ H2 Hpost) as [Hr Hb]. split; [done|].
  destruct (pc s2); simpl in Hb; lia.
Qed.

Lemma round_robin_stops_after_close_witness :
  handovers [Recv (tx 0); Sent; LoopCond] = 1 /\
  exists s,
    run step (NewRoundRobin 2)
      ([Consume; LoopCond] ++ CloseAsyncCAS :: [Recv (tx 0); Sent; LoopCond])
      = Some s /\
    running s = false /\ handovers [Recv (tx 0); Sent; LoopCond] <= 1.
Proof.
  split; [reflexivity|]. eexists. split; [reflexivity|].
  exact (round_robin_stops_after_close 2 [Consume; LoopCond]
           [Recv (tx 0); Sent; LoopCond] _ eq_refl).
Defined.

(** The branch of the select of [WaitForClose] that fires. *)
Inductive wait_branch :=
  | ClosedFired     (* [<-o.closedChan] *)
  | TimerFired.     (* [<-time.After(timeout)] *)

(** [WaitForClose(timeout)]: [None] in the outer option when the branch
    cannot fire. *)
Definition WaitForClose (s : state) (b : wait_branch) : option (option error) :=
  match b with
  | ClosedFired => if closedChan s then Some None else None
  | TimerFired => Some (Some ErrTimeout)
  end.

Lemma loop_closed_run n evs s :
  run step (NewRoundRobin n) evs = Some s ->
  closedChan s = true -> pc s = LExited.
Proof.
  revert evs s.
  apply (run_ind step _ (fun _ s => closedChan s = true -> pc s = LExited));
    [done|].
  intros evs s e s' _ IH Hstep. unfold step in Hstep.
  destruct e; destruct (pc s) eqn:Epc; simpl in Hstep;
    repeat case_match; simplify_eq; simpl in *; rewrite ?Epc in *;
    try done; try (intros Hc; specialize (IH Hc); congruence).
Qed.

(** [WaitForClose] answers [nil] only when [loop] has returned and every
    output channel has been closed, exactly once; any other answer is
    [ErrTimeout]. *)
Theorem wait_for_close_after_exit n evs s b res :
  run step (NewRoundRobin n) evs = Some s ->
  WaitForClose s b = Some res ->
  (res = None /\ pc s = LExited /\ chanCloses s = replicate n 1) \/
  (res = Some ErrTimeout /\ b = TimerFired).
Proof.
  intros Hrun Hw. destruct b; simpl in Hw.
  - destruct (closedChan s) eqn:Hc; [|done]. simplify_eq. left.
    pose proof (loop_closed_run _ _ _ Hrun Hc) as Hpc.
    destruct (close_inv_run _ _ _ Hrun) as [_ _ _ Hx].
    by destruct (Hx Hpc).
  - simplify_eq. by right.
Qed.

Lemma wait_for_close_after_exit_witness :
  WaitForClose after_three_in ClosedFired = Some None /\
  pc after_three_in = LExited /\ chanCloses after_three_in = [1; 1].
Proof.
  split; [reflexivity|].
  destruct (wait_for_close_after_exit 2 three_in after_three_in ClosedFired
              None) as [(_ & H1 & H2)|(H & _)];
    [vm_compute; reflexivity | reflexivity | by split | done].
Defined.

End RoundRobin.

(** * FanIn (broker/fan_in.go) *)

Module FanIn.

(** Blocking points of the goroutine [NewFanIn] starts for an input. *)
Inductive fwd_pc :=
  | FRecv                      (* [<-inputs[index].TransactionChan()] *)
  | FSend (t : Transaction)    (* [i.transactions <- in] *)
  | FSignal                    (* deferred: [i.inputClosedChan <- index] *)
  | FDone                      (* returned *)
  | FPanicked.                 (* send on a closed channel *)

(** Blocking points of [FanIn.loop]. *)
Inductive loop_pc :=
  | LHead                      (* [for len(i.inputMap) > 0] *)
  | LWait                      (* [index := <-i.inputClosedChan] *)
  | LExited.                   (* returned, deferred function done *)

Record state := mkState {
  forwarders : list fwd_pc;    (* the goroutine of each input, by index *)
  inputMap : gset nat;         (* [i.inputMap] *)
  lpc : loop_pc;
  transactions : list (nat * Transaction);
                               (* what went through [i.transactions]: the
                                  input it came from and the transaction,
                                  oldest first *)
  closeRequests : nat;         (* [CloseAsync] calls, each passed on to
                                  every input *)
  chanCloses : nat;            (* [close(i.transactions)] calls *)
  closedChan : bool            (* [i.closedChan] is closed *)
}.

Inductive fwd_event :=
  | FRecvTran (t : Transaction)  (* the input hands over [t] *)
  | FRecvClosed                  (* the input's channel is found closed *)
  | FSent                        (* the consumer takes the transaction *)
  | FSignalled.                  (* [loop] takes the index *)

Inductive event :=
  | Fwd (k : nat) (e : fwd_event)
  | LoopCond                     (* [loop] tests [len(i.inputMap) > 0] *)
  | CloseAsync.

#[global] Instance fwd_pc_eq_dec : EqDecision fwd_pc.
Proof. solve_decision. Defined.
#[global] Instance loop_pc_eq_dec : EqDecision loop_pc.
Proof. solve_decision. Defined.

(** [NewFanIn(inputs, stats)] with [n = len(inputs)]. *)
Definition NewFanIn (n : nat) : state :=
  {| forwarders := replicate n FRecv; inputMap := list_to_set (seq 0 n);
     lpc := LHead; transactions := []; closeRequests := 0;
     chanCloses := 0; closedChan := false |}.

Definition step (s : state) (e : event) : option state :=
  match e with
  | CloseAsync =>
      Some {| forwarders := forwarders s; inputMap := inputMap s;
              lpc := lpc s; transactions := transactions s;
              closeRequests := S (closeRequests s);
              chanCloses := chanCloses s; closedChan := closedChan s |}
  | LoopCond =>
      match lpc s with
      | LHead =>
          if decide (inputMap s = ∅)
          then Some {| forwarders := forwarders s; inputMap := inputMap s;
                       lpc := LExited; transactions := transactions s;
                       closeRequests := closeRequests s;
                       chanCloses := S (chanCloses s); closedChan := true |}
          else Some {| forwarders := forwarders s; inputMap := inputMap s;
                       lpc := LWait; transactions := transactions s;
                       closeRequests := closeRequests s;
                       chanCloses := chanCloses s;
                       closedChan := closedChan s |}
      | _ => None
      end
  | Fwd k e =>
      p ← forwarders s !! k;
      match p, e with
      | FRecv, FRecvTran t =>
          Some {| forwarders := <[k := FSend t]> (forwarders s);
                  inputMap := inputMap s; lpc := lpc s;
                  transactions := transactions s;
                  closeRequests := closeRequests s;
                  chanCloses := chanCloses s; closedChan := closedChan s |}
      | FRecv, FRecvClosed =>
          Some {| forwarders := <[k := FSignal]> (forwarders s);
                  inputMap := inputMap s; lpc := lpc s;
                  transactions := transactions s;
                  closeRequests := closeRequests s;
                  chanCloses := chanCloses s; closedChan := closedChan s |}
      | FSend t, FSent =>
          if bool_decide (0 < chanCloses s)
          then Some {| forwarders := <[k := FPanicked]> (forwarders s);
                       inputMap := inputMap s; lpc := lpc s;
                       transactions := transactions s;
                       closeRequests := closeRequests s;
                       chanCloses := chanCloses s;
                       closedChan := closedChan s |}
          else Some {| forwarders := <[k := FRecv]> (forwarders s);
                       inputMap := inputMap s; lpc := lpc s;
                       transactions := transactions s ++ [(k, t)];
                       closeRequests := closeRequests s;
                       chanCloses := chanCloses s;
                       closedChan := closedChan s |}
      | FSignal, FSignalled =>
          match lpc s with
          | LWait =>
              Some {| forwarders := <[k := FDone]> (forwarders s);
                      inputMap := inputMap s ∖ {[k]}; lpc := LHead;
                      transactions := transactions s;
                      closeRequests := closeRequests s;
                      chanCloses := chanCloses s;
                      closedChan := closedChan s |}
          | LExited =>
              Some {| forwarders := <[k := FPanicked]> (forwarders s);
                      inputMap := inputMap s; lpc := lpc s;
                      transactions := transactions s;
                      closeRequests := closeRequests s;
                      chanCloses := chanCloses s;
                      closedChan := closedChan s |}
          | LHead => None
          end
      | _, _ => None
      end
  end.

(** *** The inputs that are still open *)

Record inv (s : state) : Prop := {
  inv_map : forall k, k ∈ inputMap s <->
                      exists p, forwarders s !! k = Some p /\ p <> FDone;
  inv_panic : forall k p, forwarders s !! k = Some p -> p <> FPanicked;
  inv_exit : lpc s = LExited -> inputMap s = ∅;
  inv_closes : chanCloses s = if decide (lpc s = LExited) then 1 else 0;
  inv_closed : closedChan s = true <-> lpc s = LExited
}.

Lemma open_inputs_init n : inv (NewFanIn n).
Proof.
  split; simpl; try done.
  - intros k. rewrite elem_of_list_to_set, elem_of_seq. split.
    + intros [_ Hk]. exists FRecv. split; [|done].
      apply lookup_replicate. split; [done | lia].
    + intros (p & [_ Hk]%lookup_replicate & _). lia.
  - by intros k p [-> _]%lookup_replicate.
Qed.

Lemma inv_update s k p p' :
  (forall j, j ∈ inputMap s <->
             exists q, forwarders s !! j = Some q /\ q <> FDone) ->
  forwarders s !! k = Some p -> p <> FDone -> p' <> FDone ->
  forall j, j ∈ inputMap s <->
            exists q, <[k := p']> (forwarders s) !! j = Some q /\ q <> FDone.
Proof.
  intros Hm Hk Hp Hp' j. rewrite Hm.
  destruct (decide (j = k)) as [->|Hne].
  - rewrite list_lookup_insert_eq by (by eapply lookup_lt_Some).
    split; intros _; eauto.
  - by rewrite list_lookup_insert_ne.
Qed.

Lemma open_inputs_step s e s' : inv s -> step s e = Some s' -> inv s'.
Proof.
  intros [Hm Hp Hx Hc Hcl] Hstep. destruct e as [k e| |]; simpl in Hstep.
  - destruct (forwarders s !! k) as [p|] eqn:Hk; [|done]. simpl in Hstep.
    assert (forall p', p' <> FPanicked ->
              forall j q, <[k := p']> (forwarders s) !! j = Some q ->
                          q <> FPanicked) as Hins.
    { intros p' Hp' j q Hj. destruct (decide (j = k)) as [->|Hne].
      - rewrite list_lookup_insert_eq in Hj by (by eapply lookup_lt_Some).
        by simplify_eq.
      - rewrite list_lookup_insert_ne in Hj by done. by eapply Hp. }
    assert (lpc s = LExited -> p = FDone) as Hdone.
    { intros He. destruct (decide (p = FDone)) as [|Hlive]; [done|].
      assert (k ∈ inputMap s) as Hin by (apply Hm; eauto).
      rewrite (Hx He) in Hin. set_solver. }
    destruct p, e; try done.
    + simplify_eq. split; simpl; try done; [|by apply Hins].
      by apply (inv_update s k FRecv).
    + simplify_eq. split; simpl; try done; [|by apply Hins].
      by apply (inv_update s k FRecv).
    + case_bool_decide as Hclosed.
      { rewrite Hc in Hclosed. case_decide as He; [|lia].
        by specialize (Hdone He). }
      simplify_eq. split; simpl; try done; [|by apply Hins].
      by apply (inv_update s k (FSend t)).
    + destruct (lpc s) eqn:El; [done| |by specialize (Hdone eq_refl)].
      simplify_eq. split; simpl; try done.
      * intros j. rewrite elem_of_difference, Hm, not_elem_of_singleton.
        destruct (decide (j = k)) as [->|Hne].
        -- rewrite list_lookup_insert_eq by (by eapply lookup_lt_Some).
           split; [by intros [_ ?] | by intros (q & [= <-] & ?)].
        -- rewrite list_lookup_insert_ne by done. naive_solver.
      * by apply Hins.
      * rewrite Hcl. naive_solver.
  - destruct (lpc s) eqn:El; try done.
    case_decide as He; simplify_eq; split; simpl; try done.
    + by rewrite Hc.
    + rewrite Hcl. naive_solver.
  - simplify_eq. by split.
Qed.

Lemma open_inputs_run n evs s : run step (NewFanIn n) evs = Some s -> inv s.
Proof.
  revert evs s. apply run_ind; [apply open_inputs_init|].
  intros evs s e s' _ Hinv Hstep. by eapply open_inputs_step.
Qed.

(** [loop] closes the merged channel at most once, and only when the
    goroutine of every input has returned: no goroutine is left to send
    on the closed merged channel or on the closed [inputClosedChan].
    [closedChan] is closed at that very point. *)
Theorem fan_in_closes_after_inputs n evs s :
  run step (NewFanIn n) evs = Some s ->
  length (forwarders s) = n /\
  chanCloses s <= 1 /\
  (closedChan s = true <-> chanCloses s = 1) /\
  (chanCloses s = 1 ->
   forall k p, forwarders s !! k = Some p -> p = FDone) /\
  (forall k p, forwarders s !! k = Some p -> p <> FPanicked).
Proof.
  intros Hrun. split.
  { revert evs s Hrun. apply run_ind; [apply length_replicate|].
    intros evs s e s' _ IH Hstep. destruct e as [k e| |]; simpl in Hstep.
    - destruct (forwarders s !! k) as [p|]; [|done]. simpl in Hstep.
      destruct p, e; try done; repeat case_match; simplify_eq; simpl;
        by rewrite length_insert.
    - repeat case_match; by simplify_eq.
    - by simplify_eq. }
  pose proof (open_inputs_run _ _ _ Hrun) as [Hm Hp Hx Hc Hcl].
  rewrite Hc, Hcl. case_decide as He.
  - repeat split; try done; try lia.
    intros _ k p Hk. destruct (decide (p = FDone)) as [|Hlive]; [done|].
    assert (k ∈ inputMap s) as Hin by (apply Hm; eauto).
    rewrite (Hx He) in Hin. set_solver.
  - repeat split; try done; try lia.
Qed.

(** *** Transactions of one input *)

(** What a schedule takes from input [k]. *)
Definition received (k : nat) (evs : list event) : list Transaction :=
  omap (fun e => match e with
                 | Fwd k' (FRecvTran t) =>
                     if decide (k' = k) then Some t else None
                 | _ => None
                 end) evs.

(** What went through the merged channel from input [k]. *)
Definition merged_from (k : nat) (l : list (nat * Transaction))
  : list Transaction :=
  omap (fun '(k', t) => if decide (k' = k) then Some t else None) l.

Definition holding (k : nat) (s : state) : list Transaction :=
  match forwarders s !! k with Some (FSend t) => [t] | _ => [] end.

(** The merged channel carries the transactions of every input in the
    order the input gave them, none lost and none twice: all that were
    taken from the input, but the one its goroutine still holds. *)
Theorem fan_in_keeps_order n evs s k :
  run step (NewFanIn n) evs = Some s ->
  received k evs = merged_from k (transactions s) ++ holding k s.
Proof.
  revert evs s. apply run_ind.
  { unfold holding. simpl. destruct (replicate n FRecv !! k) as [p|] eqn:Hk;
      [|done]. by apply lookup_replicate in Hk as [-> _]. }
  intros evs s e s' Hrun IH Hstep.
  pose proof (open_inputs_run _ _ _ Hrun) as [Hm Hp Hx Hc Hcl].
  unfold received in *. rewrite omap_app, IH. clear IH. unfold holding.
  destruct e as [k' e| |]; simpl in Hstep.
  - destruct (forwarders s !! k') as [p|] eqn:Hk'; [|done]. simpl in Hstep.
    assert (chanCloses s = 0 \/ p = FDone) as Hopen.
    { rewrite Hc. case_decide as He; [right | by left].
      destruct (decide (p = FDone)) as [|Hlive]; [done|].
      assert (k' ∈ inputMap s) as Hin by (apply Hm; eauto).
      rewrite (Hx He) in Hin. set_solver. }
    pose proof (lookup_lt_Some _ _ _ Hk') as Hlt.
    destruct (decide (k' = k)) as [->|Hne].
    + rewrite Hk'.
      destruct p, e; try done;
        repeat match type of Hstep with
               | context [match ?x with _ => _ end] => destruct x eqn:?
               end;
        simplify_eq; simpl;
        rewrite ?list_lookup_insert_eq by done; simpl;
        unfold merged_from; rewrite ?omap_app; simpl;
        rewrite ?decide_True by done; rewrite ?app_nil_r; try done.
      match goal with
      | H : bool_decide _ = true |- _ => apply bool_decide_eq_true in H
      end.
      destruct Hopen; [lia | done].
    + destruct p, e; try done;
        repeat match type of Hstep with
               | context [match ?x with _ => _ end] => destruct x eqn:?
               end;
        simplify_eq; simpl;
        rewrite ?list_lookup_insert_ne by done;
        unfold merged_from; rewrite ?omap_app; simpl;
        rewrite ?decide_False by done; rewrite ?app_nil_r; try done.
  - repeat match type of Hstep with
           | context [match ?x with _ => _ end] => destruct x eqn:?
           end; simplify_eq; simpl; by rewrite app_nil_r.
  - simplify_eq. simpl. by rewrite app_nil_r.
Qed.

(** Two inputs; input 1 hands over a transaction and both close. *)
Definition tx (n : nat) : Transaction :=
  NewTransaction [mkPart "hello world" []] (ProducerChan n).

Definition both_close : list event :=
  [Fwd 1 (FRecvTran (tx 0)); Fwd 0 (FRecvTran (tx 1)); Fwd 1 FSent;
   Fwd 1 (FRecvTran (tx 2)); Fwd 0 FSent; Fwd 1 FSent;
   CloseAsync; Fwd 0 FRecvClosed; Fwd 1 FRecvClosed;
   LoopCond; Fwd 1 FSignalled; LoopCond; Fwd 0 FSignalled; LoopCond].

Definition after_both_close : state :=
  Eval vm_compute in default (NewFanIn 2) (run step (NewFanIn 2) both_close).

Lemma fan_in_closes_after_inputs_witness :
  run step (NewFanIn 2) both_close = Some after_both_close /\
  closedChan after_both_close = true /\
  forall k p, forwarders after_both_close !! k = Some p -> p = FDone.
Proof.
  split; [vm_compute; reflexivity|]. split; [reflexivity|].
  destruct (fan_in_closes_after_inputs 2 both_close after_both_close)
    as (_ & _ & _ & H & _); [vm_compute; reflexivity|].
  by apply H.
Defined.

Lemma fan_in_keeps_order_witness :
  received 1 both_close = [tx 0; tx 2] /\
  received 1 both_close =
    merged_from 1 (transactions after_both_close) ++
    holding 1 after_both_close.
Proof.
  split; [reflexivity|].
  apply (fan_in_keeps_order 2 both_close after_both_close 1).
  vm_compute; reflexivity.
Defined.

End FanIn.

(** * FanOutSequential (broker/fan_out_sequential.go) *)

Module FanOutSequential.

(** Modelled from the spec: [Batch.Copy] of package [message] is not among
    the sources; the copy carries the same parts ("the same Batch, copied
    by reference"). *)
Definition Copy (b : Batch) : Batch := b.

(** What the outside sees of one inbound transaction. *)
Inductive obs :=
  | ObsSend (i : nat) (tx : Transaction)    (* output [i] took [tx] *)
  | ObsRes (i : nat) (res : option error)   (* output [i] answered [res] *)
  | ObsAck (res : option error).            (* [res] written to the inbound AckSink *)

Record txrec := mkTx { tx_in : Transaction; tx_log : list obs }.

(** Blocking points of the [sendLoop] closure. *)
Inductive send_pc :=
  | SRecv                                             (* select: inbound / ctx.Done *)
  | SOffer (ts : Transaction) (i : nat) (resChan : chan)
                                                      (* select: outputTSChans[i] <- tx / ctx.Done *)
  | SAwait (ts : Transaction) (i : nat) (resChan : chan)
                                                      (* select: <-resChan / ctx.Done *)
  | SThrottle (ts : Transaction) (i : nat) (resChan : chan)
                                                      (* inside [throt.Retry()] *)
  | SAck (ts : Transaction)                           (* [ts.Ack(o.ctx, nil)] *)
  | SReturned.                                        (* [wg.Done()] *)

(** One [sendLoop] goroutine: where it is, what the transaction it holds
    has gone through, and the transactions it is finished with. *)
Record sendloop := mkLoop {
  pc : send_pc;
  log : list obs;
  past : list txrec
}.

Record state := mkState {
  nOutputs : nat;            (* [len(o.outputTSChans)] *)
  cancelled : bool;          (* [o.ctx] is done *)
  inClosed : bool;           (* the inbound channel is closed *)
  nextChan : nat;            (* [make(chan error)] calls so far *)
  loops : list sendloop      (* the [maxInFlight] goroutines *)
}.

Inductive loop_event :=
  | Recv (ts : Transaction)     (* inbound select takes [ts] *)
  | RecvClosed                  (* inbound select finds the channel closed *)
  | CtxDone                     (* a select takes [<-o.ctx.Done()] *)
  | Sent                        (* the output takes the offered transaction *)
  | Res (res : option error)    (* the output answers on [resChan] *)
  | ThrottleOk                  (* [throt.Retry()] returns true *)
  | ThrottleClosed              (* [throt.Retry()] returns false *)
  | AckDelivered                (* [ts.Ack] hands [nil] to the AckSink *)
  | AckCancelled.               (* [ts.Ack] returns [ctx.Err()] *)

Inductive event :=
  | CloseAsync                  (* [o.close()] *)
  | ProducerClose
  | Loop (k : nat) (e : loop_event).

(** After [Consume]: [loop] has started [maxInFlight] [sendLoop]s. *)
Definition started (n maxInFlight : nat) : state :=
  {| nOutputs := n; cancelled := false; inClosed := false; nextChan := 0;
     loops := replicate maxInFlight (mkLoop SRecv [] []) |}.

(** The transaction is over for this goroutine: file its record. *)
Definition finish (ts : Transaction) (p : send_pc) (w : sendloop) : sendloop :=
  {| pc := p; log := []; past := past w ++ [mkTx ts (log w)] |}.

Definition record (o : obs) (p : send_pc) (w : sendloop) : sendloop :=
  {| pc := p; log := log w ++ [o]; past := past w |}.

(** [for i := range o.outputTSChans] reaching index [i]: a fresh [resChan]
    and the first offer, or the end of the range and the ack. *)
Definition enter_output (n fresh : nat) (ts : Transaction) (i : nat) : send_pc * nat :=
  if decide (i < n) then (SOffer ts i (MadeChan fresh), S fresh)
  else (SAck ts, fresh).

(** One step of a [sendLoop]; returns the goroutine and the channel
    counter.  [throt.Retry()] and [Transaction.Ack] are not among the
    sources: [Retry] reports false only when its close channel (here
    [o.ctx.Done()]) fires, [Ack] fails only when the context is done. *)
Definition loop_step (n : nat) (cancel closed : bool) (fresh : nat)
    (w : sendloop) (e : loop_event) : option (sendloop * nat) :=
  match pc w, e with
  | SRecv, Recv ts =>
      if closed then None
      else let '(p, fresh') := enter_output n fresh ts 0 in
           Some ({| pc := p; log := []; past := past w |}, fresh')
  | SRecv, RecvClosed =>
      if closed then Some ({| pc := SReturned; log := []; past := past w |}, fresh)
      else None
  | SRecv, CtxDone =>
      if cancel then Some ({| pc := SReturned; log := []; past := past w |}, fresh)
      else None
  | SOffer ts i c, Sent =>
      Some (record (ObsSend i (NewTransaction (Copy (Payload ts)) c))
              (SAwait ts i c) w, fresh)
  | SOffer ts i c, CtxDone =>
      if cancel then Some (finish ts SReturned w, fresh) else None
  | SAwait ts i c, Res None =>
      let '(p, fresh') := enter_output n fresh ts (S i) in
      Some (record (ObsRes i None) p w, fresh')
  | SAwait ts i c, Res (Some err) =>
      Some (record (ObsRes i (Some err)) (SThrottle ts i c) w, fresh)
  | SAwait ts i c, CtxDone =>
      if cancel then Some (finish ts SReturned w, fresh) else None
  | SThrottle ts i c, ThrottleOk => Some ({| pc := SOffer ts i c; log := log w; past := past w |}, fresh)
  | SThrottle ts i c, ThrottleClosed =>
      if cancel then Some (finish ts SReturned w, fresh) else None
  | SAck ts, AckDelivered =>
      Some (finish ts SRecv (record (ObsAck None) SRecv w), fresh)
  | SAck ts, AckCancelled =>
      if cancel then Some (finish ts SRecv w, fresh) else None
  | _, _ => None
  end.

Definition step (s : state) (e : event) : option state :=
  match e with
  | CloseAsync =>
      Some {| nOutputs := nOutputs s; cancelled := true;
              inClosed := inClosed s; nextChan := nextChan s;
              loops := loops s |}
  | ProducerClose =>
      if inClosed s then None
      else Some {| nOutputs := nOutputs s; cancelled := cancelled s;
                   inClosed := true; nextChan := nextChan s;
                   loops := loops s |}
  | Loop k e =>
      w ← loops s !! k;
      '(w', fresh') ← loop_step (nOutputs s) (cancelled s) (inClosed s)
                        (nextChan s) w e;
      Some {| nOutputs := nOutputs s; cancelled := cancelled s;
              inClosed := inClosed s; nextChan := fresh';
              loops := <[k := w']> (loops s) |}
  end.

(** Every transaction a goroutine has taken, the one in hand last. *)
Definition holding (w : sendloop) : list txrec :=
  match pc w with
  | SOffer ts _ _ | SAwait ts _ _ | SThrottle ts _ _ | SAck ts => [mkTx ts (log w)]
  | SRecv | SReturned => []
  end.

Definition taken (w : sendloop) : list txrec := past w ++ holding w.

(** *** Strict output order, as an acceptor of transaction logs *)

Inductive phase :=
  | Offering (i : nat)    (* outputs below [i] have acknowledged success *)
  | Awaiting (i : nat)    (* output [i] holds the transaction *)
  | Acked.                (* the inbound AckSink has its value *)

#[global] Instance phase_eq_dec : EqDecision phase.
Proof. solve_decision. Defined.

Definition observe (n : nat) (p : phase) (o : obs) : option phase :=
  match p, o with
  | Offering i, ObsSend j _ =>
      if decide (j = i /\ i < n) then Some (Awaiting i) else None
  | Awaiting i, ObsRes j None =>
      if decide (j = i) then Some (Offering (S i)) else None
  | Awaiting i, ObsRes j (Some _) =>
      if decide (j = i) then Some (Offering i) else None
  | Offering i, ObsAck None =>
      if decide (i = n) then Some Acked else None
  | _, _ => None
  end.

Definition sequential (n : nat) (l : list obs) : option phase :=
  run (observe n) (Offering 0) l.

(** The values written to the inbound AckSink. *)
Definition ack_values (l : list obs) : list (option error) :=
  omap (fun o => match o with ObsAck v => Some v | _ => None end) l.

Definition idx (n : nat) (p : phase) : nat :=
  match p with Offering i | Awaiting i => i | Acked => n end.

Lemma observe_idx n p o p' :
  observe n p o = Some p' ->
  idx n p <= idx n p' /\
  (forall j, idx n p <= j < idx n p' -> o = ObsRes j None).
Proof.
  destruct p as [i|i|], o as [j tx|j [err|]|[err|]]; simpl;
    try done; repeat case_decide; intros; simplify_eq; simpl;
    (split; [lia|]); intros j' Hj'; try lia.
  f_equal. lia.
Qed.

Lemma run_observe_idx n l p p' :
  run (observe n) p l = Some p' ->
  idx n p <= idx n p' /\
  (forall j, idx n p <= j < idx n p' -> ObsRes j None ∈ l).
Proof.
  revert p. induction l as [|o l IH]; intros p Hrun; simpl in Hrun.
  - simplify_eq. split; [done|]. intros j Hj. lia.
  - destruct (observe n p o) as [p1|] eqn:Ho; [|done].
    destruct (observe_idx _ _ _ _ Ho) as [Hle1 Hres1].
    destruct (IH _ Hrun) as [Hle2 Hres2].
    split; [lia|]. intros j Hj.
    destruct (decide (j < idx n p1)) as [Hlt|Hge].
    + rewrite (Hres1 j) by lia. apply list_elem_of_here.
    + apply list_elem_of_further, Hres2. lia.
Qed.

Lemma run_observe_acks n l p p' :
  run (observe n) p l = Some p' ->
  p <> Acked ->
  ack_values l = if decide (p' = Acked) then [None] else [].
Proof.
  revert p. induction l as [|o l IH]; intros p Hrun Hp; simpl in Hrun.
  - injection Hrun as <-. simpl. by destruct (decide (p = Acked)).
  - destruct (observe n p o) as [p1|] eqn:Ho; [|done].
    destruct p as [i|i|], o as [j tx|j [err|]|[err|]]; simpl in Ho;
      try done;
      repeat match type of Ho with
             | context [decide ?P] => destruct (decide P)
             end;
      simplify_eq; simpl; try (by eapply IH).
    destruct l as [|o' l]; simpl in Hrun; [|done]. by simplify_eq.
Qed.

Lemma sequential_order n l :
  is_Some (sequential n l) ->
  (forall pre i tx post,
      l = pre ++ ObsSend (S i) tx :: post -> ObsRes i None ∈ pre) /\
  (forall pre i tx mid j tx' post,
      l = pre ++ ObsSend i tx :: mid ++ ObsSend j tx' :: post -> i <= j) /\
  (forall pre v post,
      l = pre ++ ObsAck v :: post ->
      v = None /\ forall j, j < n -> ObsRes j None ∈ pre).
Proof.
  intros [p Hp]. unfold sequential in Hp. split; [|split].
  - intros pre i tx post ->.
    apply run_split in Hp as (p1 & p2 & Hpre & Ho & _).
    destruct p1 as [i1|i1|]; simpl in Ho; try done.
    case_decide; [|done].
    apply run_observe_idx in Hpre as [_ Hres]. apply Hres. simpl. lia.
  - intros pre i tx mid j tx' post ->.
    apply run_split in Hp as (p1 & p2 & _ & Ho & Hrest).
    apply run_split in Hrest as (p3 & p4 & Hmid & Ho' & _).
    destruct p1 as [i1|i1|]; simpl in Ho; try done.
    case_decide; [|done]. simplify_eq.
    destruct p3 as [i3|i3|]; simpl in Ho'; try done.
    case_decide; [|done]. simplify_eq.
    apply run_observe_idx in Hmid as [Hle _]. simpl in Hle. lia.
  - intros pre v post ->.
    apply run_split in Hp as (p1 & p2 & Hpre & Ho & _).
    destruct p1 as [i1|i1|], v; simpl in Ho; try done.
    case_decide; [|done]. subst i1. split; [done|]. intros j Hj.
    apply run_observe_idx in Hpre as [_ Hres]. apply Hres. simpl. lia.
Qed.

(** *** What every [sendLoop] maintains *)

Definition cur_ok (n : nat) (w : sendloop) : Prop :=
  match pc w with
  | SOffer _ i _ | SThrottle _ i _ =>
      i < n /\ sequential n (log w) = Some (Offering i)
  | SAwait _ i _ => i < n /\ sequential n (log w) = Some (Awaiting i)
  | SAck _ => sequential n (log w) = Some (Offering n)
  | SRecv | SReturned => log w = []
  end.

(** A transaction the goroutine is finished with was acknowledged, or was
    given up after the context was cancelled. *)
Definition settled (n : nat) (cancel : bool) (r : txrec) : Prop :=
  sequential n (tx_log r) = Some Acked \/
  (cancel = true /\ exists p, sequential n (tx_log r) = Some p /\ p <> Acked).

Record loop_ok (n : nat) (cancel : bool) (w : sendloop) : Prop := {
  ok_cur : cur_ok n w;
  ok_past : Forall (settled n cancel) (past w)
}.

Lemma sequential_snoc n l o :
  sequential n (l ++ [o]) =
  match sequential n l with Some p => observe n p o | None => None end.
Proof. apply run_snoc. Qed.

Lemma loop_step_ok n cancel closed fresh w e w' fresh' :
  loop_ok n cancel w ->
  loop_step n cancel closed fresh w e = Some (w', fresh') ->
  loop_ok n cancel w'.
Proof.
  intros [Hcur Hpast] Hstep. unfold loop_step in Hstep. unfold cur_ok in Hcur.
  destruct (pc w) eqn:Epc, e; try done; simpl in Hstep;
    unfold enter_output in Hstep;
    repeat case_match; simplify_eq;
    try match type of Hcur with _ /\ _ => destruct Hcur as [Hi Hcur] end;
    split; unfold cur_ok; simpl;
    rewrite ?sequential_snoc, ?Hcur; simpl;
    rewrite ?decide_True by done; try done;
    try (do 2 f_equal; lia);
    try (apply Forall_app_2; [done|]; apply Forall_singleton; simpl).
  all: try (right; split; [done|]; eexists; split; [exact Hcur | done]).
  - replace n with 0 by lia. done.
  - left. simpl. rewrite sequential_snoc, Hcur. simpl. by rewrite decide_True.
Qed.

Lemma settled_cancel n cancel r : settled n cancel r -> settled n true r.
Proof. intros [H|[_ H]]; [by left | by right]. Qed.

Record sys_ok (n : nat) (s : state) : Prop := {
  sys_n : nOutputs s = n;
  sys_loops : Forall (loop_ok n (cancelled s)) (loops s)
}.

Lemma sendloops_ok_run n m evs s :
  run step (started n m) evs = Some s -> sys_ok n s.
Proof.
  revert evs s. apply run_ind.
  { split; [done|]. simpl. apply Forall_replicate. by split. }
  intros evs s e s' _ [Hn Hl] Hstep. destruct e as [| |k e]; simpl in Hstep.
  - simplify_eq. split; [done|]. simpl.
    eapply Forall_impl; [exact Hl|]. intros w [Hc Hp]. split; [done|].
    eapply Forall_impl; [exact Hp|]. intros r. apply settled_cancel.
  - destruct (inClosed s); simplify_eq. by split.
  - destruct (loops s !! k) as [w|] eqn:Hk; [|done]. simpl in Hstep.
    destruct (loop_step _ _ _ _ w e) as [[w' fresh']|] eqn:Hw; [|done].
    simpl in Hstep. simplify_eq. split; [done|]. simpl.
    apply Forall_insert; [done|].
    eapply loop_step_ok; [|exact Hw].
    eapply Forall_lookup_1; eauto.
Qed.

Lemma holding_ok n w r :
  cur_ok n w -> r ∈ holding w ->
  exists p, sequential n (tx_log r) = Some p /\ p <> Acked.
Proof.
  unfold cur_ok, holding. intros Hc Hr.
  destruct (pc w); try (by apply elem_of_nil in Hr);
    apply list_elem_of_singleton in Hr as ->; simpl;
    try match type of Hc with _ /\ _ => destruct Hc as [_ Hc] end;
    (eexists; split; [exact Hc | done]).
Qed.

(** C3. Every inbound transaction of FanOutSequential goes through the
    outputs in strict index order: it is offered to output [i + 1] only
    after output [i] acknowledged success, never to an earlier output
    again, and the inbound AckSink gets its (success) acknowledgement only
    after every output acknowledged success. *)
Theorem fan_out_sequential_strict_order n m evs s k w r :
  run step (started n m) evs = Some s ->
  loops s !! k = Some w ->
  r ∈ taken w ->
  (forall pre i tx post,
      tx_log r = pre ++ ObsSend (S i) tx :: post -> ObsRes i None ∈ pre) /\
  (forall pre i tx mid j tx' post,
      tx_log r = pre ++ ObsSend i tx :: mid ++ ObsSend j tx' :: post ->
      i <= j) /\
  (forall pre v post,
      tx_log r = pre ++ ObsAck v :: post ->
      v = None /\ forall j, j < n -> ObsRes j None ∈ pre).
Proof.
  intros [_ Hl]%sendloops_ok_run Hk Hr.
  pose proof (Forall_lookup_1 _ _ _ _ Hl Hk) as [Hc Hp].
  apply sequential_order.
  unfold taken in Hr. apply elem_of_app in Hr as [Hr|Hr].
  - rewrite Forall_forall in Hp. destruct (Hp _ Hr) as [H|[_ [p [H _]]]]; eauto.
  - destruct (holding_ok _ _ _ Hc Hr) as [p [H _]]. eauto.
Qed.

Lemma fan_out_sequential_acks n m evs s k w r :
  run step (started n m) evs = Some s ->
  loops s !! k = Some w ->
  r ∈ taken w ->
  length (ack_values (tx_log r)) <= 1 /\
  (cancelled s = false -> r ∈ past w -> ack_values (tx_log r) = [None]).
Proof.
  intros [_ Hl]%sendloops_ok_run Hk Hr.
  pose proof (Forall_lookup_1 _ _ _ _ Hl Hk) as [Hc Hp].
  rewrite Forall_forall in Hp.
  assert (forall p, sequential n (tx_log r) = Some p ->
            ack_values (tx_log r) = if decide (p = Acked) then [None] else [])
    as Hacks.
  { intros p Hseq. by eapply run_observe_acks. }
  split.
  - unfold taken in Hr. apply elem_of_app in Hr as [Hr|Hr].
    + destruct (Hp _ Hr) as [H|[_ [p [H _]]]]; rewrite (Hacks _ H);
        case_decide; simpl; lia.
    + destruct (holding_ok _ _ _ Hc Hr) as [p [H _]]. rewrite (Hacks _ H).
      case_decide; simpl; lia.
  - intros Hno Hr'. destruct (Hp _ Hr') as [H|[Hyes _]]; [|congruence].
    by rewrite (Hacks _ H).
Qed.

(** Two outputs; the first refuses the transaction once. *)
Definition tx0 : Transaction :=
  NewTransaction [mkPart "hello world" []] (ProducerChan 0).

Definition refused_once : list event :=
  [Loop 0 (Recv tx0); Loop 0 Sent; Loop 0 (Res (Some (ErrNew "test")));
   Loop 0 ThrottleOk; Loop 0 Sent; Loop 0 (Res None);
   Loop 0 Sent; Loop 0 (Res None); Loop 0 AckDelivered].

Definition after_refused_once : state :=
  Eval vm_compute in default (started 2 1) (run step (started 2 1) refused_once).

Definition loop_of_tx0 : sendloop :=
  Eval vm_compute in
    default (mkLoop SRecv [] []) (loops after_refused_once !! 0).

Definition record_of_tx0 : txrec :=
  Eval vm_compute in
    default (mkTx tx0 [])
      (w ← loops after_refused_once !! 0; past w !! 0).

Lemma fan_out_sequential_strict_order_witness :
  run step (started 2 1) refused_once = Some after_refused_once /\
  tx_log record_of_tx0 =
    [ObsSend 0 (NewTransaction (Payload tx0) (MadeChan 0));
     ObsRes 0 (Some (ErrNew "test"));
     ObsSend 0 (NewTransaction (Payload tx0) (MadeChan 0));
     ObsRes 0 None;
     ObsSend 1 (NewTransaction (Payload tx0) (MadeChan 1));
     ObsRes 1 None;
     ObsAck None] /\
  forall pre v post,
    tx_log record_of_tx0 = pre ++ ObsAck v :: post ->
    v = None /\ forall j, j < 2 -> ObsRes j None ∈ pre.
Proof.
  split; [vm_compute; reflexivity|]. split; [reflexivity|].
  refine (proj2 (proj2
    (fan_out_sequential_strict_order 2 1 refused_once after_refused_once 0
       _ record_of_tx0 _ _ _))).
  - vm_compute; reflexivity.
  - vm_compute; reflexivity.
  - vm_compute. apply list_elem_of_here.
Defined.

(** *** The rest of the broker's surface *)

(** The loop of [NewFanOutSequential] over the outputs.  An output is
    given by what its [Consume] and [output.GetMaxInFlight] answer; the
    result is the error of the first output that refuses its channel, or
    the [maxInFlight] the broker is left with. *)
Fixpoint wire (outputs : list (option error * (Z * bool))) (maxInFlight : Z)
  : error + Z :=
  match outputs with
  | [] => inr maxInFlight
  | (Some err, _) :: _ => inl err
  | (None, (mif, ok)) :: rest =>
      wire rest (if ok && (maxInFlight <? mif)%Z then mif else maxInFlight)
  end.

Definition NewFanOutSequential (outputs : list (option error * (Z * bool)))
  : error + Z :=
  wire outputs 1.





(** [NewFanOutSequential] fails exactly when an output refuses its
    channel, and with the error of the first output that does: the outputs
    before it have been given their channels, those after it none. *)
Theorem new_fan_out_sequential_first_error outputs err :
  NewFanOutSequential outputs = inl err <->
  exists pre x post,
    outputs = pre ++ (Some err, x) :: post /\
    Forall (fun o => o.1 = None) pre.
Proof.
  unfold NewFanOutSequential. generalize 1%Z as m0.
  induction outputs as [|[[e|] [mif ok]] outputs IH]; intros m0; simpl.
  - split; [done|]. intros (pre & x & post & Heq & _).
    by destruct pre.
  - split.
    + intros [= ->]. exists [], (mif, ok), outputs. by split.
    + intros (pre & x & post & Heq & Hpre).
      destruct pre as [|[o y] pre]; simplify_eq/=; [done|].
      by apply Forall_cons in Hpre as [[=] _].
  - rewrite IH. split.
    + intros (pre & x & post & -> & Hpre).
      exists ((None, (mif, ok)) :: pre), x, post.
      split; [done | by apply Forall_cons].
    + intros (pre & x & post & Heq & Hpre).
      destruct pre as [|[o y] pre]; simplify_eq/=.
      apply Forall_cons in Hpre as [_ Hpre]. eauto.
Qed.

(** *** Goroutines and transactions in flight *)






Lemma sequential_without_outputs l p :
  sequential 0 l = Some p -> l = [] \/ l = [ObsAck None].
Proof.
  unfold sequential. destruct l as [|o l]; [by left|]. simpl.
  destruct o as [j tx|j res|[err|]]; simpl; try done.
  - case_decide; [lia | done].
  - destruct l as [|o' l]; simpl; [by right | done].
Qed.

(** A broker without outputs acknowledges every transaction it takes
    at once, and sends nothing: the record of a transaction is empty, or
    the one [nil] written to its AckSink. *)
Theorem fan_out_sequential_without_outputs m evs s k w r :
  run step (started 0 m) evs = Some s ->
  loops s !! k = Some w ->
  r ∈ taken w ->
  tx_log r = [] \/ tx_log r = [ObsAck None].
Proof.
  intros [_ Hl]%sendloops_ok_run Hk Hr.
  pose proof (Forall_lookup_1 _ _ _ _ Hl Hk) as [Hc Hp].
  unfold taken in Hr. apply elem_of_app in Hr as [Hr|Hr].
  - rewrite Forall_forall in Hp.
    destruct (Hp _ Hr) as [H|[_ [p [H _]]]];
      by eapply sequential_without_outputs.
  - destruct (holding_ok _ _ _ Hc Hr) as [p [H _]].
    by eapply sequential_without_outputs.
Qed.

Definition acked_at_once : list event :=
  [Loop 0 (Recv tx0); Loop 0 AckDelivered].

Lemma fan_out_sequential_without_outputs_witness :
  exists s w,
    run step (started 0 1) acked_at_once = Some s /\
    loops s !! 0 = Some w /\
    past w = [mkTx tx0 [ObsAck None]] /\
    (tx_log (mkTx tx0 [ObsAck None]) = [] \/
     tx_log (mkTx tx0 [ObsAck None]) = [ObsAck None]).
Proof.
  eexists _, _. split; [reflexivity|]. split; [reflexivity|].
  split; [reflexivity|].
  refine (fan_out_sequential_without_outputs 1 acked_at_once _ 0 _
            (mkTx tx0 [ObsAck None]) eq_refl eq_refl _).
  apply list_elem_of_here.
Defined.

(** *** Payloads and response channels *)

(** The sends of a transaction record: output index and what was sent. *)
Definition sends_of (l : list obs) : list (nat * Transaction) :=
  omap (fun o => match o with ObsSend j tx => Some (j, tx) | _ => None end) l.

Lemma sends_of_snoc l o :
  sends_of (l ++ [o]) =
  sends_of l ++ match o with ObsSend j tx => [(j, tx)] | _ => [] end.
Proof. unfold sends_of. rewrite omap_app. by destruct o. Qed.

Lemma elem_of_sends_of j tx l : (j, tx) ∈ sends_of l <-> ObsSend j tx ∈ l.
Proof.
  unfold sends_of. rewrite list_elem_of_omap. split.
  - intros (o & Ho & Heq). destruct o; by simplify_eq.
  - intros Ho. by exists (ObsSend j tx).
Qed.

(** Every send carries a copy of the payload of [ts] and a channel made
    by the broker ([F] channels so far); the channels grow with the output
    index. *)
Record carried (ts : Transaction) (F : nat) (sl : list (nat * Transaction))
  : Prop := {
  ca_made : forall j tx, (j, tx) ∈ sl ->
    Payload tx = Copy (Payload ts) /\
    exists c, responseChan tx = MadeChan c /\ c < F;
  ca_mono : forall j tx j' tx' c c',
    (j, tx) ∈ sl -> (j', tx') ∈ sl ->
    responseChan tx = MadeChan c -> responseChan tx' = MadeChan c' ->
    (j < j' <-> c < c')
}.

(** The sends so far went to output [i] on channel [cur], or to earlier
    outputs on earlier channels. *)
Definition below (i cur : nat) (sl : list (nat * Transaction)) : Prop :=
  forall j tx c, (j, tx) ∈ sl -> responseChan tx = MadeChan c ->
    (j = i /\ c = cur) \/ (j < i /\ c < cur).

Lemma carried_nil ts F : carried ts F [].
Proof.
  split.
  - intros j tx Hin. by apply elem_of_nil in Hin.
  - intros j tx j' tx' c c' Hin. by apply elem_of_nil in Hin.
Qed.

Lemma carried_le ts F F' sl : F <= F' -> carried ts F sl -> carried ts F' sl.
Proof.
  intros Hle [Hm Ho]. split; [|done].
  intros j tx Hin. destruct (Hm _ _ Hin) as [Hp (c & Hc & Hlt)].
  split; [done|]. exists c. split; [done | lia].
Qed.

Lemma carried_snoc ts F sl i cur :
  cur < F -> carried ts F sl -> below i cur sl ->
  carried ts F (sl ++ [(i, NewTransaction (Copy (Payload ts)) (MadeChan cur))]).
Proof.
  intros Hlt [Hm Ho] Hb. split.
  - intros j tx [Hin|Hin%list_elem_of_singleton]%elem_of_app;
      [by eapply Hm|]. simplify_eq. simpl. eauto.
  - intros j tx j' tx' c c'
      [Hin|Hin%list_elem_of_singleton]%elem_of_app
      [Hin'|Hin'%list_elem_of_singleton]%elem_of_app Hc Hc';
      simplify_eq/=.
    + exact (Ho _ _ _ _ _ _ Hin Hin' Hc Hc').
    + destruct (Hb _ _ _ Hin Hc) as [[-> ->]|[? ?]]; lia.
    + destruct (Hb _ _ _ Hin' Hc') as [[-> ->]|[? ?]]; lia.
    + lia.
Qed.

Lemma below_snoc i cur sl p :
  below i cur sl -> below i cur (sl ++ [(i, NewTransaction p (MadeChan cur))]).
Proof.
  intros Hb j tx c [Hin|Hin%list_elem_of_singleton]%elem_of_app Hc;
    [by eapply Hb|]. simplify_eq/=. by left.
Qed.

Lemma below_next i cur sl F : cur < F -> below i cur sl -> below (S i) F sl.
Proof.
  intros Hlt Hb j tx c Hin Hc. right.
  destruct (Hb _ _ _ Hin Hc) as [[-> ->]|[? ?]]; lia.
Qed.

Definition cur_carried (F : nat) (w : sendloop) : Prop :=
  match pc w with
  | SOffer ts i ch | SAwait ts i ch | SThrottle ts i ch =>
      exists cur, ch = MadeChan cur /\ cur < F /\
                  carried ts F (sends_of (log w)) /\
                  below i cur (sends_of (log w))
  | SAck ts => carried ts F (sends_of (log w))
  | SRecv | SReturned => True
  end.

Record chans_ok (F : nat) (w : sendloop) : Prop := {
  ch_cur : cur_carried F w;
  ch_past : Forall (fun r => carried (tx_in r) F (sends_of (tx_log r))) (past w)
}.

Lemma chans_ok_le F F' w : F <= F' -> chans_ok F w -> chans_ok F' w.
Proof.
  intros Hle [Hc Hp]. split.
  - unfold cur_carried in *. destruct (pc w); try done;
      try (destruct Hc as (cur & -> & Hlt & Hca & Hb); exists cur;
           split; [done|]; split; [lia|];
           split; [by eapply carried_le | done]).
    by eapply carried_le.
  - eapply Forall_impl; [exact Hp|]. intros r. by apply carried_le.
Qed.

Lemma loop_step_chans n cancel closed F w e w' F' :
  chans_ok F w ->
  loop_step n cancel closed F w e = Some (w', F') ->
  F <= F' /\ chans_ok F' w'.
Proof.
  intros [Hc Hp] Hstep. unfold loop_step in Hstep. unfold cur_carried in Hc.
  destruct (pc w) eqn:Epc, e as [ts'| | | |[err|]| | | |]; try done;
    simpl in Hstep; unfold enter_output in Hstep.
  - (* a transaction is taken *)
    case_match; [done|]. case_decide; simplify_eq.
    + split; [lia|]. split; unfold cur_carried; simpl.
      * exists F. split; [done|]. split; [lia|].
        split; [apply carried_nil|].
        intros j tx c Hin. by apply elem_of_nil in Hin.
      * eapply Forall_impl; [exact Hp|]. intros r. apply carried_le. lia.
    + split; [lia|]. split; unfold cur_carried; simpl;
        [apply carried_nil | done].
  - case_match; simplify_eq. split; [lia|]. by split.
  - case_match; simplify_eq. split; [lia|]. by split.
  - case_match; simplify_eq. destruct Hc as (cur & -> & Hlt & Hca & Hb).
    split; [lia|]. split; unfold cur_carried; simpl; [done|].
    apply Forall_app_2; [done|]. by apply Forall_singleton.
  - (* the output takes the offer *)
    simplify_eq. destruct Hc as (cur & -> & Hlt & Hca & Hb).
    split; [lia|]. split; unfold cur_carried; simpl; [|done].
    rewrite sends_of_snoc. exists cur. split; [done|]. split; [done|].
    split; [by apply carried_snoc | by apply below_snoc].
  - case_match; simplify_eq. destruct Hc as (cur & -> & Hlt & Hca & Hb).
    split; [lia|]. split; unfold cur_carried; simpl; [done|].
    apply Forall_app_2; [done|]. by apply Forall_singleton.
  - (* the output refuses *)
    simplify_eq. destruct Hc as (cur & -> & Hlt & Hca & Hb).
    split; [lia|]. split; unfold cur_carried; simpl; [|done].
    rewrite sends_of_snoc, app_nil_r. exists cur. by do 3 (split; [done|]).
  - (* the output acknowledges *)
    destruct Hc as (cur & -> & Hlt & Hca & Hb).
    case_decide; simplify_eq.
    + split; [lia|]. split; unfold cur_carried; simpl.
      * rewrite sends_of_snoc, app_nil_r. exists F.
        split; [done|]. split; [lia|]. split.
        -- eapply carried_le; [|exact Hca]. lia.
        -- by eapply below_next.
      * eapply Forall_impl; [exact Hp|]. intros r. apply carried_le. lia.
    + split; [lia|]. split; unfold cur_carried; simpl; [|done].
      by rewrite sends_of_snoc, app_nil_r.
  - simplify_eq. split; [lia|]. split; unfold cur_carried; simpl; done.
  - case_match; simplify_eq. destruct Hc as (cur & -> & Hlt & Hca & Hb).
    split; [lia|]. split; unfold cur_carried; simpl; [done|].
    apply Forall_app_2; [done|]. by apply Forall_singleton.
  - simplify_eq. split; [lia|]. split; unfold cur_carried; simpl; [done|].
    apply Forall_app_2; [done|]. apply Forall_singleton. simpl.
    by rewrite sends_of_snoc, app_nil_r.
  - case_match; simplify_eq. split; [lia|].
    split; unfold cur_carried; simpl; [done|].
    apply Forall_app_2; [done|]. by apply Forall_singleton.
Qed.

Lemma chans_ok_run n m evs s :
  run step (started n m) evs = Some s ->
  Forall (chans_ok (nextChan s)) (loops s).
Proof.
  revert evs s. apply run_ind.
  { simpl. apply Forall_replicate. by split. }
  intros evs s e s' _ IH Hstep. destruct e as [| |k e]; simpl in Hstep.
  - by simplify_eq.
  - destruct (inClosed s); by simplify_eq.
  - destruct (loops s !! k) as [w|] eqn:Hk; [|done]. simpl in Hstep.
    destruct (loop_step _ _ _ _ w e) as [[w' fresh']|] eqn:Hw; [|done].
    simpl in Hstep. simplify_eq. simpl.
    pose proof (Forall_lookup_1 _ _ _ _ IH Hk) as Hok.
    destruct (loop_step_chans _ _ _ _ _ _ _ _ Hok Hw) as [Hle Hok'].
    apply Forall_insert; [|done].
    eapply Forall_impl; [exact IH|]. intros w0. by apply chans_ok_le.
Qed.

(** Every send of a transaction carries a copy of the inbound payload and
    a response channel the broker made itself, never the producer's; the
    sends to one output (the first and the retries) share one channel, and
    sends to different outputs never do. *)
Theorem fan_out_sequential_response_channels n m evs s k w r :
  run step (started n m) evs = Some s ->
  loops s !! k = Some w ->
  r ∈ taken w ->
  (forall i tx, ObsSend i tx ∈ tx_log r ->
     Payload tx = Copy (Payload (tx_in r)) /\
     exists c, responseChan tx = MadeChan c /\ c < nextChan s) /\
  (forall i tx j tx', ObsSend i tx ∈ tx_log r -> ObsSend j tx' ∈ tx_log r ->
     (i = j <-> responseChan tx = responseChan tx')).
Proof.
  intros Hrun Hk Hr. pose proof (chans_ok_run _ _ _ _ Hrun) as Hall.
  pose proof (Forall_lookup_1 _ _ _ _ Hall Hk) as [Hc Hp].
  assert (carried (tx_in r) (nextChan s) (sends_of (tx_log r))) as [Hm Ho].
  { unfold taken in Hr. apply elem_of_app in Hr as [Hr|Hr].
    - rewrite Forall_forall in Hp. by apply Hp.
    - unfold holding in Hr. unfold cur_carried in Hc.
      destruct (pc w); try (by apply elem_of_nil in Hr);
        apply list_elem_of_singleton in Hr as ->; simpl;
        try (by destruct Hc as (cur & _ & _ & Hca & _)); done. }
  split.
  - intros i tx Hin%elem_of_sends_of. by eapply Hm.
  - intros i tx j tx' Hin%elem_of_sends_of Hin'%elem_of_sends_of.
    destruct (Hm _ _ Hin) as [_ (c & Hc1 & _)].
    destruct (Hm _ _ Hin') as [_ (c' & Hc2 & _)].
    pose proof (Ho _ _ _ _ _ _ Hin Hin' Hc1 Hc2) as H1.
    pose proof (Ho _ _ _ _ _ _ Hin' Hin Hc2 Hc1) as H2.
    rewrite Hc1, Hc2. split.
    + intros ->. f_equal. lia.
    + intros [= ->]. lia.
Qed.

Lemma fan_out_sequential_response_channels_witness :
  tx_log record_of_tx0 !! 2
    = Some (ObsSend 0 (NewTransaction (Payload tx0) (MadeChan 0))) /\
  tx_log record_of_tx0 !! 4
    = Some (ObsSend 1 (NewTransaction (Payload tx0) (MadeChan 1))) /\
  (0 = 1 <->
   responseChan (NewTransaction (Payload tx0) (MadeChan 0)) =
   responseChan (NewTransaction (Payload tx0) (MadeChan 1))).
Proof.
  split; [reflexivity|]. split; [reflexivity|].
  refine (proj2
    (fan_out_sequential_response_channels 2 1 refused_once after_refused_once
       0 loop_of_tx0 record_of_tx0 _ _ _) 0 _ 1 _ _ _).
  - vm_compute; reflexivity.
  - vm_compute; reflexivity.
  - vm_compute. apply list_elem_of_here.
  - apply (list_elem_of_lookup_2 _ 2). reflexivity.
  - apply (list_elem_of_lookup_2 _ 4). reflexivity.
Defined.

End FanOutSequential.

(** * Retry (output/retry.go) *)

Module Retry.

(** [errors.New("message failed to reach a target destination")] *)
Definition send_failed : error :=
  ErrNew "message failed to reach a target destination".

(** Blocking points of the per-transaction goroutine of [Retry.loop]. *)
Inductive worker_pc :=
  | WHead                          (* [for !r.shutSig.ShouldCloseAtLeisure()] *)
  | WAwait                         (* select: [<-resChan] / close *)
  | WBackoff (d : Z)               (* select: [time.After(nextBackoff)] / close *)
  | WResend                        (* select: [transactionsOut <- tx] / close *)
  | WAck (resOut : option error)   (* [ts.Ack(ctx, resOut)] *)
  | WDone.                         (* returned, deferred function done *)

(** Blocking points of [Retry.loop] itself. *)
Inductive main_pc :=
  | MHead                          (* [for !r.shutSig.ShouldCloseAtLeisure()] *)
  | MGate                          (* [for atomic.LoadInt64(&errLooped) > 0] *)
  | MGateWait                      (* select: errInterruptChan / 100ms / close *)
  | MRecv                          (* select: [<-r.transactionsIn] / close *)
  | MSend (tran : Transaction) (rChan : chan)
                                   (* select: [transactionsOut <- tx] / close *)
  | MWait                          (* returned: the deferred [done()] has
                                      cancelled [ctx]; now [wg.Wait()] *)
  | MExited.                       (* [close(r.transactionsOut)] and the rest *)

Inductive worker_event :=
  | WCond                          (* the loop condition is read *)
  | WRes (res : option error)      (* the wrapped output answers on [resChan] *)
  | WTimer                         (* the backoff interval has passed *)
  | WSent                          (* the wrapped output takes the resent transaction *)
  | WSeeClose                      (* a select takes the close-at-leisure branch *)
  | WAckDelivered                  (* [ts.Ack] hands [resOut] to the AckSink *)
  | WAckCancelled.                 (* [ts.Ack] returns [ctx.Err()] *)

Inductive main_event :=
  | MCond                          (* the loop condition is read *)
  | MLoad                          (* [atomic.LoadInt64(&errLooped)] is read *)
  | MTimer                         (* the 100ms timer of the gate fires *)
  | MRecvTran (tran : Transaction) (* the inbound select takes [tran] *)
  | MRecvClosed                    (* the inbound channel is found closed *)
  | MSent                          (* the wrapped output takes the first send *)
  | MSeeClose                      (* a select takes the close-at-leisure branch *)
  | MJoin.                         (* [wg.Wait()] returns *)

Inductive event :=
  | CloseAsync                     (* [r.shutSig.CloseAtLeisure()] *)
  | ProducerClose
  | Main (e : main_event)
  | Worker (k : nat) (e : worker_event).

#[global] Instance worker_pc_eq_dec : EqDecision worker_pc.
Proof. solve_decision. Defined.
#[global] Instance main_pc_eq_dec : EqDecision main_pc.
Proof. solve_decision. Defined.

Section WithBackoff.
(** The backoff policy ([backoff.BackOff], built by [r.backoffCtor]) is
    not among the sources: it is a parameter.  [NextBackOff] yields the
    next interval, or [None] for [backoff.Stop], and the policy's next
    state. *)
Context {B : Type}.
Variable backoffCtor : B.
Variable NextBackOff : B -> option Z * B.

Record worker := mkWorker {
  ts : Transaction;              (* the inbound transaction *)
  resChan : chan;                (* the channel made for it by [loop] *)
  backOff : option B;            (* [nil] until the first failure *)
  inErrLoop : bool;
  wpc : worker_pc;
  sends : list Transaction;      (* what the wrapped output took for [ts], oldest first *)
  acked : list (option error)    (* what was written to the AckSink of [ts] *)
}.

Record state := mkState {
  closeAtLeisure : bool;         (* [r.shutSig] was told to close at leisure *)
  inClosed : bool;               (* the inbound channel is closed *)
  errLooped : Z;                 (* the [int64] counter of [loop] *)
  nextChan : nat;                (* [make(chan error)] calls so far *)
  mpc : main_pc;
  workers : list worker;         (* goroutines started by [loop], oldest first *)
  dropped : list Transaction     (* taken from the inbound channel, given up before a goroutine was started *)
}.

(** After [Consume]. *)
Definition started : state :=
  {| closeAtLeisure := false; inClosed := false; errLooped := 0;
     nextChan := 0; mpc := MHead; workers := []; dropped := [] |}.

Definition set_wpc (p : worker_pc) (w : worker) : worker :=
  {| ts := ts w; resChan := resChan w; backOff := backOff w;
     inErrLoop := inErrLoop w; wpc := p; sends := sends w;
     acked := acked w |}.

(** The goroutine returns and its deferred function runs: [wg.Done()],
    and if it was in its error loop, the counter goes down and the
    consumer is interrupted (a send that does not block).  The result
    carries the change of the counter and whether the interrupt was
    tried. *)
Definition leave (w : worker) : worker * Z * bool :=
  (set_wpc WDone w, (if inErrLoop w then -1 else 0)%Z, inErrLoop w).

Definition stay (w : worker) : worker * Z * bool := (w, 0%Z, false).

(** The body of [if res != nil], up to the next select. *)
Definition on_failure (w : worker) : worker * Z * bool :=
  let d := (if inErrLoop w then 0 else 1)%Z in
  let b := match backOff w with Some b => b | None => backoffCtor end in
  let '(next, b') := NextBackOff b in
  ({| ts := ts w; resChan := resChan w; backOff := Some b';
      inErrLoop := true;
      wpc := match next with
             | None => WAck (Some send_failed)
             | Some dur => WBackoff dur
             end;
      sends := sends w; acked := acked w |}, d, false).

(** One step of the goroutine.  [close] is the close-at-leisure signal of
    [r.shutSig], which the loop condition and the selects look at;
    [cancelled] is [ctx.Err() != nil], which only [ts.Ack(ctx, resOut)]
    looks at ([Transaction.Ack] is not among the sources: it hands the
    value over, or gives up when its context is done). *)
Definition worker_step (close cancelled : bool) (w : worker)
    (e : worker_event) : option (worker * Z * bool) :=
  match wpc w, e with
  | WHead, WCond =>
      Some (stay (set_wpc (if close then WAck None else WAwait) w))
  | WAwait, WRes None => Some (stay (set_wpc (WAck None) w))
  | WAwait, WRes (Some _) => Some (on_failure w)
  | WBackoff _, WTimer => Some (stay (set_wpc WResend w))
  | WResend, WSent =>
      Some (stay {| ts := ts w; resChan := resChan w; backOff := backOff w;
                    inErrLoop := inErrLoop w; wpc := WHead;
                    sends := sends w ++
                             [NewTransaction (Payload (ts w)) (resChan w)];
                    acked := acked w |})
  | (WAwait | WBackoff _ | WResend), WSeeClose =>
      if close then Some (leave w) else None
  | WAck v, WAckDelivered =>
      Some (leave {| ts := ts w; resChan := resChan w; backOff := backOff w;
                     inErrLoop := inErrLoop w; wpc := wpc w;
                     sends := sends w; acked := acked w ++ [v] |})
  | WAck v, WAckCancelled =>
      if cancelled then Some (leave w) else None
  | _, _ => None
  end.

Definition set_mpc (p : main_pc) (s : state) : state :=
  {| closeAtLeisure := closeAtLeisure s; inClosed := inClosed s;
     errLooped := errLooped s; nextChan := nextChan s; mpc := p;
     workers := workers s; dropped := dropped s |}.

(** [go func(ts, resChan) {...}(tran, rChan)], the first send done. *)
Definition spawn (tran : Transaction) (rChan : chan) : worker :=
  {| ts := tran; resChan := rChan; backOff := None; inErrLoop := false;
     wpc := WHead; sends := [NewTransaction (Payload tran) rChan];
     acked := [] |}.

Definition main_step (s : state) (e : main_event) : option state :=
  match mpc s, e with
  | MHead, MCond =>
      Some (set_mpc (if closeAtLeisure s then MWait else MGate) s)
  | MGate, MLoad =>
      Some (set_mpc (if decide (0 < errLooped s)%Z then MGateWait else MRecv) s)
  | MGateWait, MTimer => Some (set_mpc MGate s)
  | MRecv, MRecvTran tran =>
      if inClosed s then None
      else Some {| closeAtLeisure := closeAtLeisure s;
                   inClosed := inClosed s; errLooped := errLooped s;
                   nextChan := S (nextChan s);
                   mpc := MSend tran (MadeChan (nextChan s));
                   workers := workers s; dropped := dropped s |}
  | MRecv, MRecvClosed =>
      if inClosed s then Some (set_mpc MWait s) else None
  | MSend tran rChan, MSent =>
      Some {| closeAtLeisure := closeAtLeisure s; inClosed := inClosed s;
              errLooped := errLooped s; nextChan := nextChan s;
              mpc := MHead;
              workers := workers s ++ [spawn tran rChan];
              dropped := dropped s |}
  | MSend tran rChan, MSeeClose =>
      if closeAtLeisure s
      then Some {| closeAtLeisure := closeAtLeisure s;
                   inClosed := inClosed s; errLooped := errLooped s;
                   nextChan := nextChan s; mpc := MWait;
                   workers := workers s;
                   dropped := dropped s ++ [tran] |}
      else None
  | (MGateWait | MRecv), MSeeClose =>
      if closeAtLeisure s then Some (set_mpc MWait s) else None
  | MWait, MJoin =>
      if decide (Forall (fun w => wpc w = WDone) (workers s))
      then Some (set_mpc MExited s) else None
  | _, _ => None
  end.

(** [loop] has returned.  Its deferred functions run last registered
    first: [done()] (line 174), then the closure that starts with
    [wg.Wait()] (lines 165-171). *)
Definition returned (s : state) : bool :=
  match mpc s with MWait | MExited => true | _ => false end.

(** [ctx] of [loop], from [r.shutSig.CloseAtLeisureCtx]: it is done once
    the close-at-leisure signal is there, and once [done()] was called,
    that is as soon as [loop] returns, on the closed inbound channel too. *)
Definition ctx_done (s : state) : bool := closeAtLeisure s || returned s.

Definition step (s : state) (e : event) : option state :=
  match e with
  | CloseAsync =>
      Some {| closeAtLeisure := true; inClosed := inClosed s;
              errLooped := errLooped s; nextChan := nextChan s;
              mpc := mpc s; workers := workers s; dropped := dropped s |}
  | ProducerClose =>
      if inClosed s then None
      else Some {| closeAtLeisure := closeAtLeisure s; inClosed := true;
                   errLooped := errLooped s; nextChan := nextChan s;
                   mpc := mpc s; workers := workers s;
                   dropped := dropped s |}
  | Main e => main_step s e
  | Worker k e =>
      match workers s !! k with
      | None => None
      | Some w =>
          match worker_step (closeAtLeisure s) (ctx_done s) w e with
          | None => None
          | Some (w', d, interrupt) =>
              Some {| closeAtLeisure := closeAtLeisure s;
                      inClosed := inClosed s;
                      errLooped := (errLooped s + d)%Z;
                      nextChan := nextChan s;
                      mpc := match mpc s with
                             | MGateWait =>
                                 if interrupt then MGate else MGateWait
                             | p => p
                             end;
                      workers := <[k := w']> (workers s);
                      dropped := dropped s |}
          end
      end
  end.
(** *** The backoff policy along a transaction *)

(** The first [j] calls of [NextBackOff] on [b] all grant an interval. *)
Fixpoint granted (j : nat) (b : B) : bool :=
  match j with
  | 0 => true
  | S j' =>
      match NextBackOff b with
      | (Some _, b') => granted j' b'
      | (None, _) => false
      end
  end.

Fixpoint policy_after (j : nat) (b : B) : B :=
  match j with
  | 0 => b
  | S j' => policy_after j' (snd (NextBackOff b))
  end.

(** A policy with max-retries [K] answers [backoff.Stop] at its
    [K + 1]-th call at the latest.  This is for a limit [K >= 1]: the
    configuration value 0 stands for no limit (lines 31-33: retried
    "until success or, if the retries or max elapsed time fields are
    non-zero, either is reached"), so that no number bounds its sends. *)
Definition max_retries (K : nat) : Prop :=
  1 <= K /\ granted (S K) backoffCtor = false.

Lemma policy_after_S j b :
  policy_after (S j) b = snd (NextBackOff (policy_after j b)).
Proof. revert b. induction j as [|j IH]; intros b; [done|]. simpl. apply IH. Qed.

Lemma granted_S j b :
  granted (S j) b =
  granted j b && bool_decide (is_Some (fst (NextBackOff (policy_after j b)))).
Proof.
  revert b. induction j as [|j IH]; intros b.
  - simpl. by destruct (NextBackOff b) as [[d|] b'].
  - change (granted (S (S j)) b) with
      (match NextBackOff b with
       | (Some _, b') => granted (S j) b'
       | (None, _) => false
       end).
    change (granted (S j) b) with
      (match NextBackOff b with
       | (Some _, b') => granted j b'
       | (None, _) => false
       end).
    change (policy_after (S j) b) with (policy_after j (snd (NextBackOff b))).
    destruct (NextBackOff b) as [[d|] b']; simpl; [apply IH | done].
Qed.

Lemma granted_le j j' b : granted j b = true -> j' <= j -> granted j' b = true.
Proof.
  induction j as [|j IH]; intros Hg Hle.
  - by replace j' with 0 by lia.
  - destruct (decide (j' = S j)) as [->|Hne]; [done|].
    rewrite granted_S in Hg. apply andb_true_iff in Hg as [Hg _].
    apply IH; [done | lia].
Qed.

Lemma granted_bound K j :
  max_retries K -> granted j backoffCtor = true -> j <= K.
Proof.
  unfold max_retries. intros [_ Hmax] Hg.
  destruct (decide (j <= K)) as [|Hgt]; [done|].
  rewrite (granted_le j (S K)) in Hmax; [done | done | lia].
Qed.

(** *** What every goroutine maintains *)

Definition pending (w : worker) : nat :=
  match wpc w with WBackoff _ | WResend => 1 | _ => 0 end.

Definition retrying (w : worker) : Prop :=
  match wpc w with
  | WHead | WAwait | WBackoff _ | WResend => True
  | WAck _ | WDone => False
  end.

Record worker_ok (cancelled : bool) (w : worker) : Prop := {
  wk_sends :
    Forall (fun tx => tx = NewTransaction (Payload (ts w)) (resChan w))
           (sends w);
  wk_calls : exists j,
    granted j backoffCtor = true /\
    length (sends w) + pending w <= S j /\
    (retrying w ->
     default backoffCtor (backOff w) = policy_after j backoffCtor);
  wk_ack :
    match wpc w with
    | WDone => acked w = [None] \/ acked w = [Some send_failed] \/
               (cancelled = true /\ acked w = [])
    | WAck v => acked w = [] /\ (v = None \/ v = Some send_failed)
    | _ => acked w = []
    end
}.

Lemma spawn_ok close tran rChan : worker_ok close (spawn tran rChan).
Proof.
  split; simpl.
  - by apply Forall_singleton.
  - exists 0. by repeat split.
  - done.
Qed.

Lemma worker_ok_close close w : worker_ok close w -> worker_ok true w.
Proof.
  intros [Hs Hc Ha]. split; [done | done |].
  destruct (wpc w); try done. naive_solver.
Qed.

Lemma on_failure_ok close w :
  worker_ok close w -> wpc w = WAwait -> worker_ok close (on_failure w).1.1.
Proof.
  intros [Hs [j (Hg & Hlen & Hb)] Ha] Epc.
  unfold on_failure, pending, retrying in *. rewrite Epc in *.
  specialize (Hb I).
  change (match backOff w with Some b => b | None => backoffCtor end)
    with (default backoffCtor (backOff w)).
  rewrite Hb.
  destruct (NextBackOff (policy_after j backoffCtor)) as [[dur|] b'] eqn:Hn;
    (split; simpl; [done| |done || by auto]).
  all: unfold pending, retrying; simpl.
  - exists (S j). split; [|split; [lia|]].
    + by rewrite granted_S, Hg, Hn.
    + intros _. by rewrite policy_after_S, Hn.
  - exists j. repeat split; [done | lia | done].
Qed.

Lemma worker_ok_mono c c' w :
  (c = true -> c' = true) -> worker_ok c w -> worker_ok c' w.
Proof.
  intros Hcc [Hs Hc Ha]. split; [done | done |].
  destruct (wpc w); try done. naive_solver.
Qed.

Lemma worker_step_ok close cancelled w e w' d i :
  (close = true -> cancelled = true) ->
  worker_ok cancelled w ->
  worker_step close cancelled w e = Some (w', d, i) ->
  worker_ok cancelled w'.
Proof.
  intros Hcc Hok Hstep. unfold worker_step in Hstep.
  destruct (wpc w) eqn:Epc, e as [|[err|]| | | | |]; try done.
  all: try match type of Hstep with
           | Some (on_failure _) = _ =>
               pose proof (on_failure_ok _ _ Hok Epc) as H;
               injection Hstep as Hw; rewrite Hw in H; exact H
           end.
  all: destruct Hok as [Hs [j (Hg & Hlen & Hb)] Ha].
  all: unfold leave, stay, pending, retrying in *; rewrite Epc in *.
  all: simpl in Hstep; repeat case_match; simplify_eq;
    (split; simpl;
     [ try first [done | apply Forall_app_2; [done | by apply Forall_singleton]]
     | exists j; unfold pending, retrying; simpl;
       rewrite ?length_app; simpl;
       repeat split; try first [done | lia | tauto]
     | ]).
  all: try match type of Ha with _ /\ _ => destruct Ha as [Ha Hv] end;
    rewrite ?Ha; simpl; auto.
  all: destruct Hv as [->| ->]; auto.
Qed.
Lemma worker_step_same close cancelled w e w' d i :
  worker_step close cancelled w e = Some (w', d, i) ->
  ts w' = ts w /\ resChan w' = resChan w.
Proof.
  unfold worker_step, leave, stay, on_failure. intros Hstep.
  destruct (wpc w), e as [|[err|]| | | | |]; try done; simpl in Hstep;
    repeat case_match; by simplify_eq.
Qed.

(** The channels made by [loop] that are in use. *)
Definition made (s : state) : list chan :=
  (resChan <$> workers s) ++
  match mpc s with MSend _ rChan => [rChan] | _ => [] end.

Record sys_ok (s : state) : Prop := {
  sys_workers : Forall (worker_ok (ctx_done s)) (workers s);
  sys_made : forall c, c ∈ made s ->
                       exists n, c = MadeChan n /\ n < nextChan s;
  sys_nodup : NoDup (made s);
  sys_dropped : dropped s <> [] -> closeAtLeisure s = true
}.

Lemma close_ctx_done s : closeAtLeisure s = true -> ctx_done s = true.
Proof. unfold ctx_done. by intros ->. Qed.

Lemma main_step_ctx s e s' :
  main_step s e = Some s' -> ctx_done s = true -> ctx_done s' = true.
Proof.
  unfold main_step, ctx_done, returned. intros Hstep.
  destruct (mpc s) eqn:Epc, e; try done; simpl in Hstep;
    repeat case_match; simplify_eq; simpl; rewrite ?Epc; simpl;
    rewrite ?orb_true_r, ?orb_false_r; try done; congruence.
Qed.

Lemma main_step_ok s e s' : sys_ok s -> main_step s e = Some s' -> sys_ok s'.
Proof.
  intros [Hw Hm Hn Hd] Hstep.
  assert (Forall (worker_ok (ctx_done s')) (workers s)) as Hw'.
  { eapply Forall_impl; [exact Hw|]. intros w. apply worker_ok_mono.
    by eapply main_step_ctx. }
  clear Hw. unfold main_step in Hstep. unfold made in *.
  destruct (mpc s) eqn:Epc, e; try done; simpl in Hstep;
    repeat case_match; simplify_eq;
    (split; unfold made; simpl; rewrite ?app_nil_r in *;
     try done; try congruence; try (intros _; congruence);
     try (intros Hne; specialize (Hd Hne); congruence)).
  - (* a channel is made *)
    intros c [Hc| ->%list_elem_of_singleton]%elem_of_app.
    + destruct (Hm c Hc) as [n [-> Hlt]]. exists n. split; [done | lia].
    + exists (nextChan s). split; [done | lia].
  - apply NoDup_app. split; [done|]. split; [|apply NoDup_singleton].
    intros c Hc ->%list_elem_of_singleton.
    destruct (Hm _ Hc) as [n [[= <-] Hlt]]. lia.
  - (* the goroutine is started *)
    apply Forall_app_2; [done|]. apply Forall_singleton, spawn_ok.
  - intros c Hc. apply Hm. by rewrite fmap_app in Hc.
  - by rewrite fmap_app.
  - (* the first send is given up *)
    intros c Hc. apply Hm, elem_of_app. by left.
  - by apply NoDup_app in Hn as [Hn _].
Qed.

Lemma sys_ok_step s e s' : sys_ok s -> step s e = Some s' -> sys_ok s'.
Proof.
  intros Hok Hstep. destruct e as [| |e|k e]; simpl in Hstep.
  - destruct Hok as [Hw Hm Hn Hd]. simplify_eq. split; [|done|done|done].
    simpl. eapply Forall_impl; [exact Hw|]. intros w. apply worker_ok_close.
  - destruct Hok as [Hw Hm Hn Hd]. destruct (inClosed s); by simplify_eq.
  - by eapply main_step_ok.
  - destruct Hok as [Hw Hm Hn Hd].
    destruct (workers s !! k) as [w|] eqn:Hk; [|done].
    destruct (worker_step _ _ w e) as [[[w' d] i]|] eqn:He; [|done].
    simplify_eq.
    destruct (worker_step_same _ _ _ _ _ _ _ He) as [_ Hc].
    assert (resChan <$> <[k:=w']> (workers s) = resChan <$> workers s) as Hsame.
    { rewrite list_fmap_insert, Hc. apply list_insert_id.
      by rewrite list_lookup_fmap, Hk. }
    assert (match
               match mpc s with
               | MGateWait => if i then MGate else MGateWait
               | p => p
               end
             with MSend _ rChan => [rChan] | _ => [] end =
             match mpc s with MSend _ rChan => [rChan] | _ => [] end)
      as Hpc.
    { destruct (mpc s), i; done. }
    assert (forall x y z u v, ctx_done
              {| closeAtLeisure := closeAtLeisure s; inClosed := x;
                 errLooped := y; nextChan := z;
                 mpc := match mpc s with
                        | MGateWait => if i then MGate else MGateWait
                        | p => p
                        end;
                 workers := u; dropped := v |} = ctx_done s) as Hctx.
    { intros. unfold ctx_done, returned. simpl. destruct (mpc s), i; done. }
    split; unfold made in *; simpl; rewrite ?Hsame, ?Hpc; try done.
    rewrite Hctx. apply Forall_insert; [done|].
    eapply worker_step_ok; [apply close_ctx_done| |exact He].
    eapply Forall_lookup_1; eauto.
Qed.

Lemma retry_ok_run evs s : run step started evs = Some s -> sys_ok s.
Proof.
  revert evs s. apply run_ind.
  - split; [by apply Forall_nil | by intros c Hc%elem_of_nil
           | apply NoDup_nil_2 | done].
  - intros evs s e s' _ Hok Hstep. by eapply sys_ok_step.
Qed.

(** *** A goroutine that has left its retry loop *)

Lemma step_close_mono s e s' :
  step s e = Some s' -> closeAtLeisure s = true -> closeAtLeisure s' = true.
Proof.
  intros Hstep Hc. destruct e as [| |e|k e]; simpl in Hstep.
  - by simplify_eq.
  - destruct (inClosed s); by simplify_eq.
  - unfold main_step in Hstep.
    destruct (mpc s), e; try done; repeat case_match; by simplify_eq.
  - repeat case_match; by simplify_eq.
Qed.

Lemma step_ctx_mono s e s' :
  step s e = Some s' -> ctx_done s = true -> ctx_done s' = true.
Proof.
  intros Hstep Hc. destruct e as [| |e|k e]; simpl in Hstep.
  - by simplify_eq.
  - destruct (inClosed s); by simplify_eq.
  - by eapply main_step_ctx.
  - destruct (workers s !! k) as [w|]; [|done].
    destruct (worker_step _ _ w e) as [[[w' d] i]|]; [|done].
    simplify_eq. unfold ctx_done, returned in *. simpl.
    destruct (mpc s), i; done.
Qed.

Lemma step_other_worker s e s' k w :
  step s e = Some s' -> workers s !! k = Some w ->
  (forall e', e <> Worker k e') ->
  workers s' !! k = Some w.
Proof.
  intros Hstep Hk Hne. destruct e as [| |e|k' e]; simpl in Hstep.
  - by simplify_eq.
  - destruct (inClosed s); by simplify_eq.
  - unfold main_step in Hstep.
    destruct (mpc s), e; try done; repeat case_match; simplify_eq;
      simpl; try done.
    by apply lookup_app_l_Some.
  - repeat case_match; simplify_eq; simpl;
      (rewrite list_lookup_insert_ne; [done|]; intros ->; by eapply Hne).
Qed.

Lemma step_this_worker s k e s' w :
  step s (Worker k e) = Some s' -> workers s !! k = Some w ->
  exists w' d i,
    worker_step (closeAtLeisure s) (ctx_done s) w e = Some (w', d, i) /\
    workers s' !! k = Some w' /\
    ctx_done s' = ctx_done s.
Proof.
  simpl. intros Hstep Hk. rewrite Hk in Hstep.
  destruct (worker_step _ _ w e) as [[[w' d] i]|] eqn:He; [|done].
  simplify_eq. exists w', d, i. simpl. split; [done|]. split.
  - apply list_lookup_insert_eq. by eapply lookup_lt_Some.
  - unfold ctx_done, returned. simpl. destruct (mpc s), i; done.
Qed.

(** From [ts.Ack(ctx, v)] on: nothing more is sent, and the AckSink
    gets [v], or nothing once the context is cancelled. *)
Definition settles (v : option error) (w0 : worker) (s' : state)
    (w' : worker) : Prop :=
  sends w' = sends w0 /\
  ((wpc w' = WAck v /\ acked w' = acked w0) \/
   (wpc w' = WDone /\
    (acked w' = acked w0 ++ [v] \/
     (ctx_done s' = true /\ acked w' = acked w0)))).

Lemma ack_pending_run s evs s' k w v :
  workers s !! k = Some w -> wpc w = WAck v ->
  run step s evs = Some s' ->
  exists w', workers s' !! k = Some w' /\ settles v w s' w'.
Proof.
  intros Hk Hpc. revert evs s'. apply run_ind.
  { exists w. split; [done|]. split; [done|]. by left. }
  intros evs s1 e s2 _ (w1 & Hk1 & Hs1 & Hcase) Hstep.
  assert ((exists e', e = Worker k e') \/ (forall e', e <> Worker k e'))
    as [[e' ->]|Hother].
  { destruct e as [| |e|k' e]; try (right; intros e'; discriminate).
    destruct (decide (k' = k)) as [->|Hne]; [left; eauto|].
    right. intros e'. congruence. }
  - destruct (step_this_worker _ _ _ _ _ Hstep Hk1)
      as (w2 & d & i & He & Hk2 & Hcl).
    exists w2. split; [done|]. unfold worker_step, leave in He.
    destruct Hcase as [[Hp Ha]|[Hp Ha]]; rewrite Hp in He; [|by destruct e'].
    destruct e'; try done; repeat case_match; simplify_eq;
      (split; simpl; [done|]); right; (split; [done|]);
      first [ left; by rewrite Ha | right; split; [congruence | done] ].
  - exists w1. split; [by eapply step_other_worker|].
    split; [done|].
    destruct Hcase as [?|[Hp [Ha|[Hc Ha]]]]; [by left | right ..].
    + split; [done|]. by left.
    + split; [done|]. right. split; [|done]. by eapply step_ctx_mono.
Qed.

Lemma done_forever s evs s' k w :
  workers s !! k = Some w -> wpc w = WDone ->
  run step s evs = Some s' ->
  workers s' !! k = Some w.
Proof.
  intros Hk Hpc. revert evs s'. apply run_ind; [done|].
  intros evs s1 e s2 _ Hk1 Hstep.
  assert ((exists e', e = Worker k e') \/ (forall e', e <> Worker k e'))
    as [[e' ->]|Hother].
  { destruct e as [| |e|k' e]; try (right; intros e'; discriminate).
    destruct (decide (k' = k)) as [->|Hne]; [left; eauto|].
    right. intros e'. congruence. }
  - destruct (step_this_worker _ _ _ _ _ Hstep Hk1)
      as (w2 & d & i & He & _).
    unfold worker_step in He. rewrite Hpc in He. by destruct e'.
  - by eapply step_other_worker.
Qed.

(** C5, as the code has it.  With a backoff policy of max-retries [K]
    ([K >= 1]), an inbound transaction is sent downstream at most [K + 1]
    times.  When the policy is exhausted (it answers [backoff.Stop]) the
    retry loop is left for [ts.Ack] with the send-failed error, and
    nothing more is sent for the transaction.  As long as the context of
    [loop] is not cancelled, all the goroutine can do is hand that error
    to the inbound AckSink.  The context is cancelled by [CloseAsync], and
    by the return of [loop] itself when the inbound channel is closed
    (its deferred [done()]); from then on [ts.Ack] may give up, and the
    AckSink then never receives anything. *)
Theorem retry_attempts_bounded K evs s k w :
  max_retries K ->
  run step started evs = Some s ->
  workers s !! k = Some w ->
  length (sends w) <= K + 1 /\
  (wpc w = WAwait ->
   (NextBackOff (default backoffCtor (backOff w))).1 = None ->
   forall err, exists s' w',
     step s (Worker k (WRes (Some err))) = Some s' /\
     workers s' !! k = Some w' /\
     wpc w' = WAck (Some send_failed) /\ sends w' = sends w) /\
  (wpc w = WAck (Some send_failed) ->
   is_Some (step s (Worker k WAckDelivered)) /\
   (ctx_done s = false ->
    forall e, is_Some (step s (Worker k e)) -> e = WAckDelivered) /\
   forall evs' s', run step s evs' = Some s' ->
     exists w', workers s' !! k = Some w' /\
       sends w' = sends w /\
       (acked w' = [Some send_failed] \/
        (acked w' = [] /\
         (wpc w' = WDone -> ctx_done s' = true)))).
Proof.
  intros Hmax Hrun Hk.
  pose proof (retry_ok_run _ _ Hrun) as [Hw _ _ _].
  pose proof (Forall_lookup_1 _ _ _ _ Hw Hk) as [Hs [j (Hg & Hlen & Hb)] Ha].
  split; [|split].
  - pose proof (granted_bound _ _ Hmax Hg). lia.
  - intros Hpc Hstop err.
    simpl. rewrite Hk. unfold worker_step. rewrite Hpc. unfold on_failure.
    change (match backOff w with Some b => b | None => backoffCtor end)
      with (default backoffCtor (backOff w)).
    destruct (NextBackOff (default backoffCtor (backOff w)))
      as [[dur|] b'] eqn:Hn; [by simplify_eq/=|].
    simpl. eexists _, _. split; [reflexivity|]. simpl.
    split; [apply list_lookup_insert_eq; by eapply lookup_lt_Some | done].
  - intros Hpc. rewrite Hpc in Ha. destruct Ha as [Ha _].
    split; [|split].
    + simpl. rewrite Hk. unfold worker_step. rewrite Hpc. simpl. eauto.
    + intros Hctx e. simpl. rewrite Hk. unfold worker_step.
      rewrite Hpc, Hctx. destruct e; simpl; try done; by intros [? ?].
    + intros evs' s' Hrun'.
      destruct (ack_pending_run _ _ _ _ _ _ Hk Hpc Hrun')
        as (w' & Hk' & Hsends & Hcase).
      exists w'. split; [done|]. split; [done|]. rewrite Ha in Hcase.
      destruct Hcase as [[Hp Hx]|[Hp [Hx|[Hc Hx]]]].
      * right. split; [done|]. intros Hd. congruence.
      * by left.
      * right. by split.
Qed.

(** C6, as the code has it.  Every send for an inbound transaction,
    the first one and each resend after a failure, carries the same
    payload and the same acknowledgement channel: the one channel that
    [loop] made when it took the transaction, which no other inbound
    transaction shares. *)
Theorem retry_resends_on_one_channel evs s k w :
  run step started evs = Some s ->
  workers s !! k = Some w ->
  (forall tx, tx ∈ sends w ->
              Payload tx = Payload (ts w) /\ responseChan tx = resChan w) /\
  (exists n, resChan w = MadeChan n /\ n < nextChan s) /\
  (forall k' w', workers s !! k' = Some w' ->
                 resChan w' = resChan w -> k' = k).
Proof.
  intros Hrun Hk.
  pose proof (retry_ok_run _ _ Hrun) as [Hw Hm Hn _].
  pose proof (Forall_lookup_1 _ _ _ _ Hw Hk) as [Hs _ _].
  split; [|split].
  - intros tx Htx. rewrite Forall_forall in Hs. by rewrite (Hs _ Htx).
  - apply Hm. unfold made. apply elem_of_app. left.
    apply list_elem_of_fmap. exists w. split; [done|].
    by eapply list_elem_of_lookup_2.
  - intros k' w' Hk' Heq. unfold made in Hn.
    apply NoDup_app in Hn as [Hn _].
    eapply NoDup_lookup; [exact Hn| |];
      rewrite list_lookup_fmap; [rewrite Hk'|rewrite Hk]; simpl;
      by rewrite ?Heq.
Qed.

(** The gate of [loop]: the inbound select is entered from the counter
    test only, on reading zero; on a positive reading the loop waits in
    a select without the inbound channel. *)
Lemma retry_gate s e s' :
  step s e = Some s' -> mpc s' = MRecv -> mpc s <> MRecv ->
  e = Main MLoad /\ (errLooped s <= 0)%Z.
Proof.
  intros Hstep Hpc' Hpc. destruct e as [| |e|k e]; simpl in Hstep.
  - by simplify_eq.
  - destruct (inClosed s); by simplify_eq.
  - unfold main_step in Hstep.
    destruct (mpc s), e; try done; repeat case_match; simplify_eq;
      simpl in *; try done.
    split; [done | lia].
  - repeat case_match; simplify_eq; simpl in *; congruence.
Qed.

Lemma retry_gate_waits s tran :
  mpc s = MGate \/ mpc s = MGateWait ->
  step s (Main (MRecvTran tran)) = None.
Proof. simpl. unfold main_step. by intros [-> | ->]. Qed.
(** *** The counter of goroutines in their error loop *)

(** What a goroutine contributes to [errLooped]: 1 from its first failure
    until its deferred function has run. *)
Definition looping (w : worker) : Z :=
  if inErrLoop w && negb (bool_decide (wpc w = WDone)) then 1%Z else 0%Z.

Definition loopers (ws : list worker) : Z :=
  foldr (fun w a => (looping w + a)%Z) 0%Z ws.

Lemma loopers_app ws ws' : loopers (ws ++ ws') = (loopers ws + loopers ws')%Z.
Proof. induction ws as [|w ws IH]; simpl; lia. Qed.

Lemma loopers_insert ws k w w' :
  ws !! k = Some w ->
  loopers (<[k := w']> ws) = (loopers ws - looping w + looping w')%Z.
Proof.
  revert k. induction ws as [|w0 ws IH]; intros k Hk; [done|].
  destruct k as [|k]; simpl in *.
  - simplify_eq. lia.
  - rewrite (IH _ Hk). lia.
Qed.

Lemma loopers_bounds ws : (0 <= loopers ws <= Z.of_nat (length ws))%Z.
Proof.
  induction ws as [|w ws IH]; simpl; [lia|].
  unfold looping. destruct (inErrLoop w && _); lia.
Qed.

Lemma worker_step_counter close cancelled w e w' d i :
  worker_step close cancelled w e = Some (w', d, i) ->
  looping w' = (looping w + d)%Z.
Proof.
  unfold worker_step, leave, stay, on_failure, looping. intros Hstep.
  destruct (wpc w) eqn:Epc, e as [|[err|]| | | | |]; try done;
    simpl in Hstep; repeat case_match; simplify_eq; simpl in *;
    rewrite ?Epc; simpl; try done;
    destruct (inErrLoop w); simpl; try done;
    repeat case_match; simplify_eq; done.
Qed.

Lemma counter_run evs s :
  run step started evs = Some s -> errLooped s = loopers (workers s).
Proof.
  revert evs s. apply run_ind; [done|].
  intros evs s e s' _ IH Hstep. destruct e as [| |e|k e]; simpl in Hstep.
  - by simplify_eq.
  - destruct (inClosed s); by simplify_eq.
  - unfold main_step in Hstep.
    destruct (mpc s), e; try done; repeat case_match; simplify_eq;
      simpl; try done.
    rewrite loopers_app. simpl. unfold looping. simpl. lia.
  - destruct (workers s !! k) as [w|] eqn:Hk; [|done].
    destruct (worker_step _ _ w e) as [[[w' d] i]|] eqn:He; [|done].
    simplify_eq. simpl. rewrite (loopers_insert _ _ _ _ Hk), IH.
    rewrite (worker_step_counter _ _ _ _ _ _ _ He). lia.
Qed.

(** The counter that gates [loop] is exact: [errLooped] is the number of
    goroutines that have seen a failure and have not returned yet.  It is
    never negative, and it is 0 when every goroutine has returned. *)
Theorem retry_counter_is_exact evs s :
  run step started evs = Some s ->
  errLooped s = loopers (workers s) /\
  (0 <= errLooped s <= Z.of_nat (length (workers s)))%Z /\
  (Forall (fun w => wpc w = WDone) (workers s) -> errLooped s = 0%Z).
Proof.
  intros Hrun%counter_run. rewrite Hrun. split; [done|].
  split; [apply loopers_bounds|].
  intros Hall. clear Hrun. induction Hall as [|w ws Hw Hall IH]; [done|].
  simpl. rewrite IH. unfold looping. rewrite Hw.
  rewrite bool_decide_eq_true_2 by done. by rewrite andb_false_r.
Qed.

(** *** The end of [loop] *)

Lemma exited_run evs s :
  run step started evs = Some s ->
  mpc s = MExited -> Forall (fun w => wpc w = WDone) (workers s).
Proof.
  revert evs s.
  apply (run_ind step _
           (fun _ s => mpc s = MExited ->
                       Forall (fun w => wpc w = WDone) (workers s)));
    [done|].
  intros evs s e s' _ IH Hstep Hex. destruct e as [| |e|k e]; simpl in Hstep.
  - simplify_eq. by apply IH.
  - destruct (inClosed s); simplify_eq. by apply IH.
  - unfold main_step in Hstep.
    destruct (mpc s) eqn:Epc, e; try done; repeat case_match; simplify_eq;
      simpl in *; try done.
  - destruct (workers s !! k) as [w|] eqn:Hk; [|done].
    destruct (worker_step _ _ w e) as [[[w' d] i]|] eqn:He; [|done].
    simplify_eq. simpl in *.
    assert (mpc s = MExited) as Hm by (destruct (mpc s), i; done).
    pose proof (Forall_lookup_1 _ _ _ _ (IH Hm) Hk) as Hd. simpl in Hd.
    unfold worker_step in He. rewrite Hd in He. by destruct e.
Qed.

Lemma exited_forever s evs s' :
  mpc s = MExited -> Forall (fun w => wpc w = WDone) (workers s) ->
  run step s evs = Some s' ->
  mpc s' = MExited /\ workers s' = workers s.
Proof.
  intros Hm Hall. revert evs s'. apply run_ind; [done|].
  intros evs s1 e s2 _ [Hm1 Hw1] Hstep.
  destruct e as [| |e|k e]; simpl in Hstep.
  - by simplify_eq.
  - destruct (inClosed s1); by simplify_eq.
  - unfold main_step in Hstep. rewrite Hm1 in Hstep. by destruct e.
  - destruct (workers s1 !! k) as [w|] eqn:Hk; [|done].
    rewrite Hw1 in Hk. pose proof (Forall_lookup_1 _ _ _ _ Hall Hk) as Hd.
    simpl in Hd. unfold worker_step in Hstep. rewrite Hd in Hstep.
    by destruct e.
Qed.

(** [loop] leaves [wg.Wait()] and closes [transactionsOut] only when every
    goroutine it started has returned; from then on nothing is sent or
    acknowledged any more, whatever is scheduled. *)
Theorem retry_exits_after_goroutines evs s :
  run step started evs = Some s ->
  mpc s = MExited ->
  Forall (fun w => wpc w = WDone) (workers s) /\
  forall evs' s', run step s evs' = Some s' ->
    mpc s' = MExited /\ workers s' = workers s.
Proof.
  intros Hrun Hm. pose proof (exited_run _ _ Hrun Hm) as Hall.
  split; [done|]. intros evs' s'. by apply exited_forever.
Qed.

(** *** One goroutine for each inbound transaction *)

(** The transactions a schedule takes from the inbound channel. *)
Definition taken_in (evs : list event) : list Transaction :=
  omap (fun e => match e with Main (MRecvTran t) => Some t | _ => None end) evs.

(** The transaction [loop] holds for its first send. *)
Definition in_hand (s : state) : list Transaction :=
  match mpc s with MSend t _ => [t] | _ => [] end.

Lemma taken_in_snoc evs e :
  taken_in (evs ++ [e]) =
  taken_in evs ++ match e with Main (MRecvTran t) => [t] | _ => [] end.
Proof.
  unfold taken_in. rewrite omap_app. destruct e as [| |[]|]; simpl; done.
Qed.

Lemma taken_in_run evs s :
  run step started evs = Some s ->
  taken_in evs = (ts <$> workers s) ++ in_hand s ++ dropped s /\
  length (dropped s) <= 1 /\
  (dropped s <> [] -> mpc s = MWait \/ mpc s = MExited).
Proof.
  revert evs s. apply run_ind; [repeat split; simpl; try done; lia|].
  intros evs s e s' _ (Ht & Hl & Hd) Hstep. rewrite taken_in_snoc, Ht.
  destruct e as [| |e|k e]; simpl in Hstep.
  - simplify_eq. simpl. by rewrite app_nil_r.
  - destruct (inClosed s); simplify_eq. simpl. by rewrite app_nil_r.
  - unfold main_step in Hstep.
    assert (forall p, mpc s = p -> p <> MWait -> p <> MExited ->
                      dropped s = []) as Hnone.
    { intros p Hp H1 H2. destruct (dropped s) as [|t l] eqn:Hdr; [done|].
      destruct Hd as [Hd|Hd]; [done| |]; congruence. }
    destruct (mpc s) eqn:Epc, e; try done; simpl in Hstep;
      repeat case_match; simplify_eq; unfold in_hand; simpl;
      rewrite ?Epc; simpl;
      try (rewrite (Hnone _ eq_refl) by done);
      rewrite ?fmap_app; simpl; rewrite ?app_nil_r, <- ?app_assoc; simpl;
      (split; [done|]); (split; [simpl; lia|]);
      try done; intros _; auto.
  - destruct (workers s !! k) as [w|] eqn:Hk; [|done].
    destruct (worker_step _ _ w e) as [[[w' d] i]|] eqn:He; [|done].
    simplify_eq. simpl.
    destruct (worker_step_same _ _ _ _ _ _ _ He) as [Hts _].
    assert (ts <$> <[k:=w']> (workers s) = ts <$> workers s) as ->.
    { rewrite list_fmap_insert, Hts. apply list_insert_id.
      by rewrite list_lookup_fmap, Hk. }
    rewrite app_nil_r. unfold in_hand in *. simpl.
    destruct (mpc s) eqn:Epc, i; simpl; repeat split; try done;
      intros Hne; destruct (Hd Hne); done.
Qed.

(** [loop] starts one goroutine for each transaction it takes from the
    inbound channel, in the order taken.  The only exception is the last
    one, while it is on its first offer: when the close signal cuts that
    offer off the transaction is dropped, unsent and unacknowledged, and
    [loop] is on its way out. *)
Theorem retry_one_goroutine_per_transaction evs s :
  run step started evs = Some s ->
  taken_in evs = (ts <$> workers s) ++ in_hand s ++ dropped s /\
  length (in_hand s ++ dropped s) <= 1 /\
  (dropped s <> [] ->
   closeAtLeisure s = true /\ (mpc s = MWait \/ mpc s = MExited)).
Proof.
  intros Hrun. destruct (taken_in_run _ _ Hrun) as (Ht & Hl & Hd).
  pose proof (retry_ok_run _ _ Hrun) as [_ _ _ Hc].
  split; [done|]. split; [|by auto].
  rewrite length_app. unfold in_hand.
  destruct (dropped s) as [|t l] eqn:Hdr.
  - destruct (mpc s); simpl; lia.
  - destruct Hd as [-> | ->]; simpl in *; try done; lia.
Qed.

(** *** A transaction that is never refused *)

Definition first_try (w : worker) : Prop :=
  if inErrLoop w
  then is_Some (backOff w)
  else sends w = [NewTransaction (Payload (ts w)) (resChan w)] /\
       backOff w = None /\
       (acked w = [] \/ acked w = [None]) /\
       match wpc w with
       | WHead | WAwait | WAck None | WDone => True
       | _ => False
       end.

Lemma worker_step_first_try close cancelled w e w' d i :
  worker_ok cancelled w -> first_try w ->
  worker_step close cancelled w e = Some (w', d, i) ->
  first_try w'.
Proof.
  intros [_ _ Ha] Hf Hstep.
  unfold worker_step, leave, stay, on_failure in Hstep. unfold first_try in *.
  destruct (inErrLoop w) eqn:Hin;
    destruct (wpc w) eqn:Epc, e as [|[err|]| | | | |]; try done;
    simpl in Hstep;
    repeat match type of Hstep with
           | context [match ?x with _ => _ end] => destruct x eqn:?
           end;
    simplify_eq; simpl; rewrite ?Hin, ?Epc; simpl; try done;
    try (by destruct Hf as (? & ? & ? & ?)).
  all: destruct Hf as (Hs & Hb & Hk & Hp); repeat split; try done.
  all: destruct Ha as [-> _]; destruct resOut; [done | by right].
Qed.

Lemma first_try_run evs s :
  run step started evs = Some s -> Forall first_try (workers s).
Proof.
  intros Hrun. pose proof Hrun as Hrun'. revert evs s Hrun Hrun'.
  apply (run_ind step _
           (fun evs s => run step started evs = Some s ->
                         Forall first_try (workers s)));
    [by intros; apply Forall_nil|].
  intros evs s e s' Hrun IH Hstep _. specialize (IH Hrun).
  pose proof (retry_ok_run _ _ Hrun) as [Hw _ _ _].
  destruct e as [| |e|k e]; simpl in Hstep.
  - by simplify_eq.
  - destruct (inClosed s); by simplify_eq.
  - unfold main_step in Hstep.
    destruct (mpc s), e; try done; repeat case_match; simplify_eq;
      simpl; try done.
    apply Forall_app_2; [done|]. apply Forall_singleton.
    unfold first_try. simpl. repeat split; auto.
  - destruct (workers s !! k) as [w|] eqn:Hk; [|done].
    destruct (worker_step _ _ w e) as [[[w' d] i]|] eqn:He; [|done].
    simplify_eq. simpl. apply Forall_insert; [done|].
    eapply worker_step_first_try; [| |exact He];
      eapply Forall_lookup_1; eauto.
Qed.

(** A transaction no send of which was answered with an error is sent
    exactly once, no backoff policy is built for it, and what reaches its
    AckSink, if anything, is [nil]; a policy is built at the first failure
    and kept for the retries. *)
Theorem retry_sends_once_without_failure evs s k w :
  run step started evs = Some s ->
  workers s !! k = Some w ->
  (inErrLoop w = false ->
   sends w = [NewTransaction (Payload (ts w)) (resChan w)] /\
   backOff w = None /\ (acked w = [] \/ acked w = [None])) /\
  (inErrLoop w = true -> is_Some (backOff w)).
Proof.
  intros Hrun Hk. pose proof (first_try_run _ _ Hrun) as Hall.
  pose proof (Forall_lookup_1 _ _ _ _ Hall Hk) as Hf. unfold first_try in Hf.
  split; intros Hin; rewrite Hin in Hf; [|done].
  by destruct Hf as (? & ? & ? & _).
Qed.

End WithBackoff.

(** *** Schedules with a concrete policy *)

(** A policy that grants the listed intervals, then stops. *)
Definition next_interval (l : list Z) : option Z * list Z :=
  match l with
  | [] => (None, [])
  | d :: l' => (Some d, l')
  end.

Definition tran (n : nat) : Transaction :=
  NewTransaction [mkPart "hello world" []] (ProducerChan n).

Definition nack : option error := Some (ErrNew "test").

(** One transaction, refused twice by the wrapped output, under a policy
    of one retry. *)
Definition refused_twice : list event :=
  [Main MCond; Main MLoad; Main (MRecvTran (tran 0)); Main MSent;
   Worker 0 WCond; Worker 0 (WRes nack); Worker 0 WTimer; Worker 0 WSent;
   Worker 0 WCond; Worker 0 (WRes nack)].

Definition policy1 : list Z := [100%Z].
Definition policy2 : list Z := [100%Z; 200%Z].

Definition final (policy : list Z) (evs : list event) : state :=
  default started (run (step policy next_interval) started evs).

Definition after_refused_twice : state :=
  Eval vm_compute in final policy1 refused_twice.

Definition after_one_resend : state :=
  Eval vm_compute in final policy1 (take 8 refused_twice).

Lemma retry_attempts_bounded_witness :
  run (step policy1 next_interval) started refused_twice
    = Some after_refused_twice /\
  exists w,
    workers after_refused_twice !! 0 = Some w /\
    length (sends w) <= 1 + 1 /\
    wpc w = WAck (Some send_failed).
Proof.
  split; [vm_compute; reflexivity|].
  eexists. split; [reflexivity|]. split; [|reflexivity].
  apply (retry_attempts_bounded policy1 next_interval 1 refused_twice
           after_refused_twice 0);
    [split; [lia | reflexivity] | vm_compute; reflexivity ..].
Defined.

(** The transaction is refused twice after [loop] went back to its inbound
    select; then the producer closes the inbound channel, [loop] returns,
    and [ts.Ack] finds its context cancelled. *)
Definition exhausted_after_return : list event :=
  [Main MCond; Main MLoad; Main (MRecvTran (tran 0)); Main MSent;
   Main MCond; Main MLoad;
   Worker 0 WCond; Worker 0 (WRes nack); Worker 0 WTimer; Worker 0 WSent;
   Worker 0 WCond; Worker 0 (WRes nack);
   ProducerClose; Main MRecvClosed; Worker 0 WAckCancelled; Main MJoin].

Definition policy_exhausted : state :=
  Eval vm_compute in final policy1 (take 12 exhausted_after_return).

Definition send_failed_lost : state :=
  Eval vm_compute in final policy1 exhausted_after_return.

(** C5, as stated, fails: the policy of one retry is exhausted after two
    sends and the goroutine leaves for [ts.Ack] with the send-failed
    error; the inbound channel is closed, [loop] returns and cancels the
    context, [ts.Ack] gives up, and the error never reaches the inbound
    AckSink, though nobody asked the wrapper to close. *)
Lemma retry_send_failed_not_acked :
  run (step policy1 next_interval) started (take 12 exhausted_after_return)
    = Some policy_exhausted /\
  (exists w, workers policy_exhausted !! 0 = Some w /\
             wpc w = WAck (Some send_failed) /\ length (sends w) = 2) /\
  run (step policy1 next_interval) policy_exhausted
    (drop 12 exhausted_after_return) = Some send_failed_lost /\
  closeAtLeisure send_failed_lost = false /\
  mpc send_failed_lost = MExited /\
  exists w,
    workers send_failed_lost !! 0 = Some w /\ ts w = tran 0 /\
    wpc w = WDone /\ acked w = [] /\
    forall evs s',
      run (step policy1 next_interval) send_failed_lost evs = Some s' ->
      exists w', workers s' !! 0 = Some w' /\ acked w' = [].
Proof.
  split; [vm_compute; reflexivity|].
  split; [eexists; split; [reflexivity|]; split; reflexivity|].
  split; [vm_compute; reflexivity|].
  split; [reflexivity|]. split; [reflexivity|].
  eexists. split; [reflexivity|].
  split; [reflexivity|]. split; [reflexivity|]. split; [reflexivity|].
  intros evs s' Hrun. eexists. split.
  - eapply done_forever; [| |exact Hrun]; reflexivity.
  - reflexivity.
Qed.

Definition after_send_failed : state :=
  Eval vm_compute in final policy1 (refused_twice ++ [Worker 0 WAckDelivered]).

Definition worker_after_send_failed : worker :=
  Eval vm_compute in
    default (spawn (tran 0) (MadeChan 0)) (workers after_send_failed !! 0).

(** C6, as stated, fails: after a failure the payload is resent with the
    acknowledgement channel of the first send, not with a new one. *)
Lemma retry_resend_reuses_channel :
  run (step policy1 next_interval) started (take 8 refused_twice)
    = Some after_one_resend /\
  exists w tx tx',
    workers after_one_resend !! 0 = Some w /\
    sends w = [tx; tx'] /\
    responseChan tx' = responseChan tx.
Proof.
  split; [vm_compute; reflexivity|].
  eexists _, _, _. split; [reflexivity|]. split; reflexivity.
Qed.

Lemma retry_resends_on_one_channel_witness :
  run (step policy1 next_interval) started (take 8 refused_twice)
    = Some after_one_resend /\
  exists w,
    workers after_one_resend !! 0 = Some w /\
    forall tx, tx ∈ sends w ->
               Payload tx = Payload (ts w) /\ responseChan tx = resChan w.
Proof.
  split; [vm_compute; reflexivity|].
  eexists. split; [reflexivity|].
  apply (retry_resends_on_one_channel policy1 next_interval
           (take 8 refused_twice) after_one_resend 0);
    vm_compute; reflexivity.
Defined.

(** The first transaction is refused after [loop] went back to its inbound
    select. *)
Definition second_while_retrying : list event :=
  [Main MCond; Main MLoad; Main (MRecvTran (tran 0)); Main MSent;
   Main MCond; Main MLoad;
   Worker 0 WCond; Worker 0 (WRes nack)].

Definition retrying_first : state :=
  Eval vm_compute in final policy2 second_while_retrying.

Definition took_second : state :=
  Eval vm_compute in
    final policy2 (second_while_retrying ++ [Main (MRecvTran (tran 1))]).

(** C7 at work: the first transaction has been refused and waits for its
    backoff interval, the counter is 1, and [loop], which read the counter
    as 0 before, takes a second transaction from the inbound channel. *)
Lemma retry_consumes_while_retrying :
  run (step policy2 next_interval) started second_while_retrying
    = Some retrying_first /\
  (exists w, workers retrying_first !! 0 = Some w /\
             wpc w = WBackoff 100 /\ inErrLoop w = true) /\
  errLooped retrying_first = 1%Z /\
  mpc retrying_first = MRecv /\
  step policy2 next_interval retrying_first (Main (MRecvTran (tran 1)))
    = Some took_second /\
  mpc took_second = MSend (tran 1) (MadeChan 1) /\
  errLooped took_second = 1%Z.
Proof.
  split; [vm_compute; reflexivity|].
  split; [eexists; split; [reflexivity|]; split; reflexivity|].
  repeat split; vm_compute; reflexivity.
Qed.

(** The close signal fires while the transaction waits for its backoff
    interval. *)
Definition closed_while_retrying : list event :=
  [Main MCond; Main MLoad; Main (MRecvTran (tran 0)); Main MSent;
   Worker 0 WCond; Worker 0 (WRes nack); CloseAsync; Worker 0 WSeeClose].

Definition after_close : state :=
  Eval vm_compute in final policy1 closed_while_retrying.

(** C1, as stated, fails: the close signal fires while the transaction
    waits for its backoff interval; its goroutine returns, and nothing is
    ever written to the AckSink of the transaction. *)
Lemma retry_close_leaves_no_ack :
  run (step policy1 next_interval) started closed_while_retrying
    = Some after_close /\
  exists w,
    workers after_close !! 0 = Some w /\ ts w = tran 0 /\
    wpc w = WDone /\ acked w = [] /\
    forall evs s', run (step policy1 next_interval) after_close evs = Some s' ->
                   exists w', workers s' !! 0 = Some w' /\ acked w' = [].
Proof.
  split; [vm_compute; reflexivity|].
  eexists. split; [reflexivity|].
  split; [reflexivity|]. split; [reflexivity|]. split; [reflexivity|].
  intros evs s' Hrun. eexists. split.
  - eapply done_forever; [| |exact Hrun]; reflexivity.
  - reflexivity.
Qed.

(** One transaction accepted at the first send, then the producer closes
    the inbound channel. *)
Definition clean_exit : list event :=
  [Main MCond; Main MLoad; Main (MRecvTran (tran 0)); Main MSent;
   Worker 0 WCond; Worker 0 (WRes None); Worker 0 WAckDelivered;
   ProducerClose; Main MCond; Main MLoad; Main MRecvClosed; Main MJoin].

Definition exited : state := Eval vm_compute in final policy1 clean_exit.

Definition worker_after_clean_exit : worker :=
  Eval vm_compute in
    default (spawn (tran 0) (MadeChan 0)) (workers exited !! 0).

(** The close signal cuts off the first offer of a second transaction. *)
Definition second_dropped : list event :=
  second_while_retrying ++
  [Main (MRecvTran (tran 1)); CloseAsync; Main MSeeClose].

Definition after_drop : state :=
  Eval vm_compute in final policy2 second_dropped.

Lemma retry_counter_is_exact_witness :
  run (step policy2 next_interval) started second_while_retrying
    = Some retrying_first /\
  errLooped retrying_first = 1%Z /\
  errLooped retrying_first = loopers (workers retrying_first).
Proof.
  split; [vm_compute; reflexivity|]. split; [reflexivity|].
  refine (proj1 (retry_counter_is_exact policy2 next_interval
                   second_while_retrying retrying_first _)).
  vm_compute; reflexivity.
Defined.

Lemma retry_exits_after_goroutines_witness :
  run (step policy1 next_interval) started clean_exit = Some exited /\
  mpc exited = MExited /\
  Forall (fun w => wpc w = WDone) (workers exited).
Proof.
  split; [vm_compute; reflexivity|]. split; [reflexivity|].
  refine (proj1 (retry_exits_after_goroutines policy1 next_interval
                   clean_exit exited _ _)); vm_compute; reflexivity.
Defined.

Lemma retry_one_goroutine_per_transaction_witness :
  run (step policy2 next_interval) started second_dropped = Some after_drop /\
  dropped after_drop = [tran 1] /\
  taken_in second_dropped =
    (ts <$> workers after_drop) ++ in_hand after_drop ++ dropped after_drop.
Proof.
  split; [vm_compute; reflexivity|]. split; [reflexivity|].
  refine (proj1 (retry_one_goroutine_per_transaction policy2 next_interval
                   second_dropped after_drop _)).
  vm_compute; reflexivity.
Defined.

Lemma retry_sends_once_without_failure_witness :
  run (step policy1 next_interval) started clean_exit = Some exited /\
  sends worker_after_clean_exit = [NewTransaction (Payload (tran 0)) (MadeChan 0)] /\
  backOff worker_after_clean_exit = None /\
  acked worker_after_clean_exit = [None].
Proof.
  split; [vm_compute; reflexivity|].
  destruct (retry_sends_once_without_failure policy1 next_interval
              clean_exit exited 0 worker_after_clean_exit)
    as [H _]; try (vm_compute; reflexivity).
  destruct (H eq_refl) as (Hs & Hb & _).
  split; [exact Hs|]. split; [exact Hb | reflexivity].
Defined.

End Retry.

(** * DynamicFanIn (broker/dynamic_fan_in.go) *)

Module DynamicFanIn.

(** A [DynamicInput] is known by its identity. *)
Definition input := nat.

(** [wrappedInput]; [ResChan] is the result channel of the [SetInput] call
    it comes from, known by the number of that call. *)
Record wrappedInput := mkWrapped {
  Name : string;
  Input : option input;
  Timeout : Z;
  ResChan : nat
}.

(** Blocking points of the goroutine started by [addInput]. *)
Inductive fwd_pc :=
  | FStart                      (* started, [d.onAdd(ident)] not yet called *)
  | FRecv                       (* [<-input.TransactionChan()] *)
  | FSend (t : Transaction)     (* [d.transactionChan <- in] *)
  | FDefer                      (* the loop is left, [d.onRemove(ident)] not yet called *)
  | FClosing                    (* [d.onRemove(ident)] returned, [close(cChan)] not yet done *)
  | FDone                       (* [cChan] is closed *)
  | FPanicked.                  (* send on the closed merged channel *)

Record forwarder := mkFwd { ident : string; fin : input; fpc : fwd_pc }.

(** Blocking points of [managerLoop]. *)
Inductive mgr_pc :=
  | GIdle                                        (* select: newInputChan / closeChan *)
  | GRemoving (w : wrappedInput)                 (* [removeInput] of the old copy: closedChan / time.After *)
  | GReply (w : wrappedInput) (err : option error)
                                                 (* select: [ResChan <- err] / closeChan *)
  | GShutdown                                    (* deferred: [for key := range d.inputs] *)
  | GShutRemoving (key : string)                 (* deferred: [removeInput(key, time.Second)] *)
  | GClosed.                                     (* merged channel and [closedChan] closed *)

(** Blocking points of a [SetInput] call. *)
Inductive call_pc :=
  | COffer (w : wrappedInput)        (* select: [newInputChan <- w] / closeChan *)
  | CAwait (resClosed : bool)        (* [<-resChan]; whether [resChan] was closed *)
  | CReturned (err : option error).

(** What the hooks and the merged channel see. *)
Inductive obs :=
  | ObsAdd (label : string)                       (* [onAdd(label)] *)
  | ObsForward (label : string) (t : Transaction) (* a transaction of that input enters the merged channel *)
  | ObsQuiesced (label : string)                  (* the forwarding loop of that input is left *)
  | ObsRemove (label : string).                   (* [onRemove(label)] *)

Record state := mkState {
  running : bool;                        (* [d.running == 1] *)
  closePending : bool;                   (* a [CloseAsync] won the CAS, has not closed yet *)
  closeChan : bool;                      (* [d.closeChan] is closed *)
  inputs : gmap string input;            (* [d.inputs] *)
  inputClosedChans : gmap string nat;    (* [d.inputClosedChans]: the goroutine whose [cChan] it is *)
  forwarders : list forwarder;           (* goroutines started by [addInput], oldest first *)
  closeRequests : list input;            (* [CloseAsync] calls made on inputs, oldest first *)
  mgr : mgr_pc;
  callers : list call_pc;                (* [SetInput] calls, oldest first *)
  trace : list obs;
  mergedCloses : nat;                    (* [close(d.transactionChan)] calls *)
  closedChan : bool                      (* [d.closedChan] is closed *)
}.

Inductive fwd_event :=
  | FOnAdd                       (* [d.onAdd(ident)] is called *)
  | FRecvTran (t : Transaction)  (* the input hands over [t] *)
  | FRecvClosed                  (* the input's channel is found closed *)
  | FSent                        (* the merged channel takes the transaction *)
  | FOnRemove                    (* deferred: [d.onRemove(ident)] is called *)
  | FCloseDone.                  (* deferred: [close(cChan)] *)

Inductive mgr_event :=
  | Accept (c : nat)             (* the request of call [c] is taken from newInputChan *)
  | Removed                      (* [removeInput]: the closed channel of the goroutine fires *)
  | TimedOut                     (* [removeInput]: [time.After(timeout)] fires *)
  | Deliver                      (* the caller takes the result from ResChan *)
  | SeeClose                     (* a select of the manager takes the closeChan branch *)
  | ShutPick (key : string)      (* deferred: the range yields [key] *)
  | ShutFinish.                  (* deferred: the range is over *)

Inductive call_event :=
  | CallSeeClose                 (* the select of [SetInput] takes the closeChan branch *)
  | CallRecvClosed.              (* [<-resChan] on the closed channel *)

Inductive event :=
  | CloseAsyncCAS                (* [CompareAndSwapInt32(&d.running, 1, 0)] *)
  | CloseAsyncClose              (* [close(d.closeChan)] by the caller that won the CAS *)
  | SetInput (ident : string) (i : option input) (timeout : Z)
                                 (* a call of [SetInput] reads [d.running] *)
  | Call (c : nat) (e : call_event)
  | Mgr (e : mgr_event)
  | Fwd (k : nat) (e : fwd_event).

#[global] Instance fwd_pc_eq_dec : EqDecision fwd_pc.
Proof. solve_decision. Defined.

Definition set_mgr (p : mgr_pc) (s : state) : state :=
  {| running := running s; closePending := closePending s;
     closeChan := closeChan s; inputs := inputs s;
     inputClosedChans := inputClosedChans s; forwarders := forwarders s;
     closeRequests := closeRequests s; mgr := p; callers := callers s;
     trace := trace s; mergedCloses := mergedCloses s;
     closedChan := closedChan s |}.

Definition set_callers (cs : list call_pc) (s : state) : state :=
  {| running := running s; closePending := closePending s;
     closeChan := closeChan s; inputs := inputs s;
     inputClosedChans := inputClosedChans s; forwarders := forwarders s;
     closeRequests := closeRequests s; mgr := mgr s; callers := cs;
     trace := trace s; mergedCloses := mergedCloses s;
     closedChan := closedChan s |}.

(** [input.CloseAsync()] on each of [ins]. *)
Definition close_inputs (ins : list input) (s : state) : state :=
  {| running := running s; closePending := closePending s;
     closeChan := closeChan s; inputs := inputs s;
     inputClosedChans := inputClosedChans s; forwarders := forwarders s;
     closeRequests := closeRequests s ++ ins; mgr := mgr s;
     callers := callers s; trace := trace s;
     mergedCloses := mergedCloses s; closedChan := closedChan s |}.

(** [addInput(ident, input)]: start the goroutine, enter it in both maps. *)
Definition addInput (label : string) (i : input) (s : state) : state :=
  {| running := running s; closePending := closePending s;
     closeChan := closeChan s;
     inputs := <[label := i]> (inputs s);
     inputClosedChans := <[label := length (forwarders s)]> (inputClosedChans s);
     forwarders := forwarders s ++ [mkFwd label i FStart];
     closeRequests := closeRequests s; mgr := mgr s; callers := callers s;
     trace := trace s; mergedCloses := mergedCloses s;
     closedChan := closedChan s |}.

(** The end of a successful [removeInput(ident, timeout)]. *)
Definition forget (label : string) (s : state) : state :=
  {| running := running s; closePending := closePending s;
     closeChan := closeChan s;
     inputs := delete label (inputs s);
     inputClosedChans := delete label (inputClosedChans s);
     forwarders := forwarders s;
     closeRequests := closeRequests s; mgr := mgr s; callers := callers s;
     trace := trace s; mergedCloses := mergedCloses s;
     closedChan := closedChan s |}.

(** Whether [<-d.inputClosedChans[ident]] can fire. *)
Definition quiesced (label : string) (s : state) : bool :=
  match inputClosedChans s !! label with
  | Some k =>
      match forwarders s !! k with
      | Some f => bool_decide (fpc f = FDone)
      | None => false
      end
  | None => false
  end.

(** The manager loop after [removeInput] went well, or was not needed:
    [if err == nil && wrappedInput.Input != nil { addInput }], then the
    reply. *)
Definition settle (w : wrappedInput) (s : state) : state :=
  set_mgr (GReply w None)
    match Input w with
    | Some i => addInput (Name w) i s
    | None => s
    end.

(** The deferred function of [managerLoop] starts: [CloseAsync] on every
    input of the map. *)
Definition shutdown (s : state) : state :=
  set_mgr GShutdown (close_inputs (snd <$> map_to_list (inputs s)) s).

Definition mgr_step (s : state) (e : mgr_event) : option state :=
  match mgr s, e with
  | GIdle, Accept c =>
      match callers s !! c with
      | Some (COffer w) =>
          let s1 := set_callers (<[c := CAwait false]> (callers s)) s in
          match inputs s !! Name w with
          | Some old => Some (set_mgr (GRemoving w) (close_inputs [old] s1))
          | None => Some (settle w s1)
          end
      | _ => None
      end
  | GRemoving w, Removed =>
      if quiesced (Name w) s then Some (settle w (forget (Name w) s))
      else None
  | GRemoving w, TimedOut => Some (set_mgr (GReply w (Some ErrTimeout)) s)
  | GReply w err, Deliver =>
      match callers s !! ResChan w with
      | Some (CAwait false) =>
          Some (set_mgr GIdle
                  (set_callers (<[ResChan w := CReturned err]> (callers s)) s))
      | _ => None
      end
  | GReply w err, SeeClose =>
      if closeChan s
      then Some (shutdown
                   (set_callers
                      (alter (fun _ => CAwait true) (ResChan w) (callers s)) s))
      else None
  | GIdle, SeeClose => if closeChan s then Some (shutdown s) else None
  | GShutdown, ShutPick key =>
      match inputs s !! key with
      | Some i => Some (set_mgr (GShutRemoving key) (close_inputs [i] s))
      | None => None
      end
  | GShutRemoving key, Removed =>
      if quiesced key s then Some (set_mgr GShutdown (forget key s))
      else None
  | GShutRemoving key, TimedOut =>
      match inputs s !! key with
      | Some i => Some (close_inputs [i] s)
      | None => Some s
      end
  | GShutdown, ShutFinish =>
      if decide (inputs s = ∅)
      then Some {| running := running s; closePending := closePending s;
                   closeChan := closeChan s; inputs := inputs s;
                   inputClosedChans := inputClosedChans s;
                   forwarders := forwarders s;
                   closeRequests := closeRequests s; mgr := GClosed;
                   callers := callers s; trace := trace s;
                   mergedCloses := S (mergedCloses s);
                   closedChan := true |}
      else None
  | _, _ => None
  end.

Definition fwd_step (merged_closed : bool) (f : forwarder) (e : fwd_event)
  : option (forwarder * list obs) :=
  let at_pc p := mkFwd (ident f) (fin f) p in
  match fpc f, e with
  | FStart, FOnAdd => Some (at_pc FRecv, [ObsAdd (ident f)])
  | FRecv, FRecvTran t => Some (at_pc (FSend t), [])
  | FRecv, FRecvClosed => Some (at_pc FDefer, [ObsQuiesced (ident f)])
  | FSend t, FSent =>
      if merged_closed then Some (at_pc FPanicked, [])
      else Some (at_pc FRecv, [ObsForward (ident f) t])
  | FDefer, FOnRemove => Some (at_pc FClosing, [ObsRemove (ident f)])
  | FClosing, FCloseDone => Some (at_pc FDone, [])
  | _, _ => None
  end.

Definition call_step (close : bool) (p : call_pc) (e : call_event)
  : option call_pc :=
  match p, e with
  | COffer _, CallSeeClose =>
      if close then Some (CReturned (Some ErrTypeClosed)) else None
  | CAwait true, CallRecvClosed => Some (CReturned None)
  | _, _ => None
  end.

Definition step (s : state) (e : event) : option state :=
  match e with
  | CloseAsyncCAS =>
      if running s
      then Some {| running := false; closePending := true;
                   closeChan := closeChan s; inputs := inputs s;
                   inputClosedChans := inputClosedChans s;
                   forwarders := forwarders s;
                   closeRequests := closeRequests s; mgr := mgr s;
                   callers := callers s; trace := trace s;
                   mergedCloses := mergedCloses s;
                   closedChan := closedChan s |}
      else Some s
  | CloseAsyncClose =>
      if closePending s
      then Some {| running := running s; closePending := false;
                   closeChan := true; inputs := inputs s;
                   inputClosedChans := inputClosedChans s;
                   forwarders := forwarders s;
                   closeRequests := closeRequests s; mgr := mgr s;
                   callers := callers s; trace := trace s;
                   mergedCloses := mergedCloses s;
                   closedChan := closedChan s |}
      else None
  | SetInput label i timeout =>
      Some (set_callers
              (callers s ++
               [if running s
                then COffer (mkWrapped label i timeout (length (callers s)))
                else CReturned (Some ErrTypeClosed)]) s)
  | Call c e =>
      p ← callers s !! c;
      p' ← call_step (closeChan s) p e;
      Some (set_callers (<[c := p']> (callers s)) s)
  | Mgr e => mgr_step s e
  | Fwd k e =>
      f ← forwarders s !! k;
      '(f', o) ← fwd_step (bool_decide (0 < mergedCloses s)) f e;
      Some {| running := running s; closePending := closePending s;
              closeChan := closeChan s; inputs := inputs s;
              inputClosedChans := inputClosedChans s;
              forwarders := <[k := f']> (forwarders s);
              closeRequests := closeRequests s; mgr := mgr s;
              callers := callers s; trace := trace s ++ o;
              mergedCloses := mergedCloses s;
              closedChan := closedChan s |}
  end.

(** [NewDynamicFanIn(inputs, ...)]: [addInput] for every entry of the
    given map, then [go d.managerLoop()]. *)
Definition empty : state :=
  {| running := true; closePending := false; closeChan := false;
     inputs := ∅; inputClosedChans := ∅; forwarders := [];
     closeRequests := []; mgr := GIdle; callers := []; trace := [];
     mergedCloses := 0; closedChan := false |}.

Definition add_all (l : list (string * input)) (s : state) : state :=
  foldr (fun '(label, i) s => addInput label i s) s l.

Definition NewDynamicFanIn (initial : gmap string input) : state :=
  add_all (map_to_list initial) empty.

(** *** The label map and the goroutines *)

Record maps_ok (s : state) : Prop := {
  mo_dom : forall L, is_Some (inputs s !! L) <-> is_Some (inputClosedChans s !! L);
  mo_chan : forall L k, inputClosedChans s !! L = Some k ->
    exists f, forwarders s !! k = Some f /\ ident f = L /\
              inputs s !! L = Some (fin f);
  mo_live : forall k f, forwarders s !! k = Some f -> fpc f <> FDone ->
    inputClosedChans s !! ident f = Some k
}.

Lemma maps_ok_empty : maps_ok empty.
Proof.
  split; simpl.
  - intros L. by rewrite !lookup_empty.
  - intros L k. by rewrite lookup_empty.
  - intros k f. by rewrite lookup_nil.
Qed.

Lemma maps_ok_addInput L i s :
  inputs s !! L = None -> maps_ok s -> maps_ok (addInput L i s).
Proof.
  intros Hnone [Hd Hc Hl].
  assert (inputClosedChans s !! L = None) as Hnone'.
  { apply eq_None_not_Some. rewrite <- Hd. by rewrite Hnone; intros [? ?]. }
  split; simpl.
  - intros L'. destruct (decide (L = L')) as [->|Hne].
    + rewrite !lookup_insert_eq. split; eauto.
    + rewrite !lookup_insert_ne by done. apply Hd.
  - intros L' k. destruct (decide (L = L')) as [->|Hne].
    + rewrite !lookup_insert_eq. intros [= <-].
      eexists. split; [by apply list_lookup_middle|]. done.
    + rewrite !lookup_insert_ne by done. intros Hk.
      destruct (Hc _ _ Hk) as (f & Hf & Hid & Hin).
      exists f. split; [by apply lookup_app_l_Some | done].
  - intros k f Hf Hlive.
    apply lookup_app_Some in Hf as [Hf|[Hge Hf]].
    + specialize (Hl _ _ Hf Hlive).
      destruct (decide (L = ident f)) as [->|Hne]; [congruence|].
      by rewrite lookup_insert_ne.
    + apply list_lookup_singleton_Some in Hf as [Hk <-]. simpl.
      rewrite lookup_insert_eq. f_equal. lia.
Qed.

Lemma maps_ok_forget L s :
  quiesced L s = true -> maps_ok s -> maps_ok (forget L s).
Proof.
  intros Hq [Hd Hc Hl]. unfold quiesced in Hq.
  destruct (inputClosedChans s !! L) as [k0|] eqn:Hk0; [|done].
  destruct (forwarders s !! k0) as [f0|] eqn:Hf0; [|done].
  apply bool_decide_eq_true in Hq.
  split; simpl.
  - intros L'. destruct (decide (L = L')) as [->|Hne].
    + rewrite !lookup_delete_eq. split; by intros [? ?].
    + rewrite !lookup_delete_ne by done. apply Hd.
  - intros L' k. destruct (decide (L = L')) as [->|Hne].
    + by rewrite lookup_delete_eq.
    + rewrite !lookup_delete_ne by done. apply Hc.
  - intros k f Hf Hlive. specialize (Hl _ _ Hf Hlive).
    destruct (decide (L = ident f)) as [->|Hne].
    + rewrite Hk0 in Hl. injection Hl as ->. congruence.
    + by rewrite lookup_delete_ne.
Qed.

Lemma maps_ok_same s s' :
  inputs s' = inputs s -> inputClosedChans s' = inputClosedChans s ->
  forwarders s' = forwarders s -> maps_ok s -> maps_ok s'.
Proof. intros H1 H2 H3 [Hd Hc Hl]. split; rewrite ?H1, ?H2, ?H3; done. Qed.

Lemma maps_ok_settle w s :
  inputs s !! Name w = None -> maps_ok s -> maps_ok (settle w s).
Proof.
  intros Hnone Hok. unfold settle.
  destruct (Input w) as [i|].
  - eapply (maps_ok_same (addInput (Name w) i s)); [done..|].
    by apply maps_ok_addInput.
  - by apply (maps_ok_same s).
Qed.

Lemma fwd_step_ident closed f e f' o :
  fwd_step closed f e = Some (f', o) ->
  ident f' = ident f /\ fin f' = fin f /\ fpc f <> FDone.
Proof.
  unfold fwd_step. intros H.
  destruct (fpc f), e; try done; repeat case_match; by simplify_eq.
Qed.

Lemma maps_ok_step s e s' : maps_ok s -> step s e = Some s' -> maps_ok s'.
Proof.
  intros Hok Hstep. destruct e as [| |L i t|c e|e|k e]; simpl in Hstep.
  - destruct (running s); simplify_eq; [by apply (maps_ok_same s) | done].
  - destruct (closePending s); simplify_eq. by apply (maps_ok_same s).
  - simplify_eq. by apply (maps_ok_same s).
  - destruct (callers s !! c) as [p|]; [|done]. simpl in Hstep.
    destruct (call_step _ p e) as [p'|]; [|done]. simpl in Hstep.
    simplify_eq. by apply (maps_ok_same s).
  - unfold mgr_step in Hstep.
    destruct (mgr s) eqn:Em, e; try done; repeat case_match; simplify_eq;
      try done; try (by apply (maps_ok_same s)).
    + apply maps_ok_settle; [done|]. by apply (maps_ok_same s).
    + apply maps_ok_settle; [by simpl; rewrite lookup_delete_eq|].
      by apply maps_ok_forget.
    + eapply (maps_ok_same (forget key s)); [done..|].
      by apply maps_ok_forget.
  - destruct (forwarders s !! k) as [f|] eqn:Hk; [|done]. simpl in Hstep.
    destruct (fwd_step _ f e) as [[f' o]|] eqn:He; [|done]. simpl in Hstep.
    simplify_eq. destruct (fwd_step_ident _ _ _ _ _ He) as (Hid & Hin & Hlive).
    destruct Hok as [Hd Hc Hl]. split; simpl; [done|..].
    + intros L k' Hk'. destruct (Hc _ _ Hk') as (f0 & Hf0 & Hid0 & Hin0).
      destruct (decide (k = k')) as [->|Hne].
      * exists f'. rewrite list_lookup_insert_eq by (by eapply lookup_lt_Some).
        simplify_eq. by rewrite Hid, Hin.
      * exists f0. by rewrite list_lookup_insert_ne.
    + intros k' f0 Hf0 Hlive0.
      destruct (decide (k = k')) as [->|Hne].
      * rewrite list_lookup_insert_eq in Hf0 by (by eapply lookup_lt_Some).
        simplify_eq. rewrite Hid. by apply Hl.
      * rewrite list_lookup_insert_ne in Hf0 by done. by apply Hl.
Qed.

(** *** The manager loop, the callers and the close signal *)

#[global] Instance wrappedInput_eq_dec : EqDecision wrappedInput.
Proof. solve_decision. Defined.
#[global] Instance mgr_pc_eq_dec : EqDecision mgr_pc.
Proof. solve_decision. Defined.

Definition mgr_ok (s : state) : Prop :=
  match mgr s with
  | GIdle => True
  | GRemoving w =>
      is_Some (inputs s !! Name w) /\
      callers s !! ResChan w = Some (CAwait false)
  | GReply w _ => callers s !! ResChan w = Some (CAwait false)
  | GShutdown | GShutRemoving _ => closeChan s = true
  | GClosed => closeChan s = true /\ inputs s = ∅
  end.

(** A pending request names the result channel of its own call. *)
Definition offers_ok (cs : list call_pc) : Prop :=
  forall c w, cs !! c = Some (COffer w) -> ResChan w = c.

Record ctl_ok (s : state) : Prop := {
  co_pending : closePending s = true -> running s = false;
  co_close : closeChan s = true -> running s = false;
  co_offer : offers_ok (callers s);
  co_mgr : mgr_ok s;
  co_merged : mergedCloses s = if decide (mgr s = GClosed) then 1 else 0
}.

Lemma offers_ok_insert cs c p :
  offers_ok cs -> (forall w, p <> COffer w) -> offers_ok (<[c := p]> cs).
Proof.
  intros Ho Hp c' w [(-> & -> & _)|[_ Hc']]%list_lookup_insert_Some.
  - by destruct (Hp w).
  - by apply Ho.
Qed.

Lemma offers_ok_alter cs c p :
  offers_ok cs -> (forall w, p <> COffer w) ->
  offers_ok (alter (fun _ => p) c cs).
Proof.
  intros Ho Hp c' w Hc'. destruct (decide (c = c')) as [->|Hne].
  - rewrite list_lookup_alter_eq in Hc'.
    destruct (cs !! c'); simplify_eq/=. by destruct (Hp w).
  - rewrite list_lookup_alter_ne in Hc' by done. by apply Ho.
Qed.

Lemma offers_ok_snoc cs p :
  offers_ok cs -> (forall w, p = COffer w -> ResChan w = length cs) ->
  offers_ok (cs ++ [p]).
Proof.
  intros Ho Hp c w [Hc|[Hge Hc]]%lookup_app_Some; [by apply Ho|].
  apply list_lookup_singleton_Some in Hc as [Hc0 ->].
  rewrite (Hp w eq_refl). lia.
Qed.

Lemma ctl_ok_step s e s' : ctl_ok s -> step s e = Some s' -> ctl_ok s'.
Proof.
  intros [Hp Hc Ho Hm Hmc] Hstep. unfold mgr_ok in Hm.
  destruct e as [| |L i t|c e|e|k e]; simpl in Hstep.
  - destruct (running s) eqn:Hr; simplify_eq; [|done].
    by split.
  - destruct (closePending s) eqn:Hcp; simplify_eq.
    split; simpl; try done; auto.
    unfold mgr_ok. simpl. destruct (mgr s); tauto.
  - simplify_eq. split; simpl; try done.
    + apply offers_ok_snoc; [done|]. intros w.
      destruct (running s); intros; by simplify_eq.
    + unfold mgr_ok. simpl. destruct (mgr s); try done;
        try match type of Hm with _ /\ _ => destruct Hm as [? Hm] end;
        try split; try done; by apply lookup_app_l_Some.
  - destruct (callers s !! c) as [p|] eqn:Hcp; [|done]. simpl in Hstep.
    destruct (call_step _ p e) as [p'|] eqn:Hcs; [|done]. simpl in Hstep.
    simplify_eq. unfold call_step in Hcs.
    assert (p <> CAwait false /\ forall w, p' <> COffer w) as [Hp1 Hp2].
    { destruct p as [?|[]|?], e; simpl in Hcs; repeat case_match;
        simplify_eq; done. }
    assert (forall c', callers s !! c' = Some (CAwait false) ->
                       <[c:=p']> (callers s) !! c' = Some (CAwait false)) as Hkeep.
    { intros c' Hc'. destruct (decide (c = c')) as [->|Hne]; [congruence|].
      by rewrite list_lookup_insert_ne. }
    split; simpl; try done.
    + by apply offers_ok_insert.
    + unfold mgr_ok. simpl. destruct (mgr s); try done;
        try match type of Hm with _ /\ _ => destruct Hm as [? Hm] end;
        try split; try done; by apply Hkeep.
  - unfold mgr_step in Hstep.
    destruct (mgr s) eqn:Em, e; try done; repeat case_match; simplify_eq;
      unfold settle, shutdown; try destruct (Input _);
      (split; unfold mgr_ok; simpl; rewrite ?Em in *; try done;
       try (by apply offers_ok_insert); try (by apply offers_ok_alter);
       try tauto).
    all: try match goal with
             | H : callers _ !! ?c = Some (COffer ?w) |- _ =>
                 rewrite (Ho _ _ H);
                 pose proof (lookup_lt_Some _ _ _ H);
                 try split; eauto using list_lookup_insert_eq
             end.
    destruct (decide (GShutdown = GClosed)); [done | lia].
  - destruct (forwarders s !! k) as [f|] eqn:Hk; [|done]. simpl in Hstep.
    destruct (fwd_step _ f e) as [[f' o]|] eqn:He; [|done]. simpl in Hstep.
    simplify_eq. by split.
Qed.

(** *** The hooks of a label, as an acceptor of the trace *)

Inductive hook_phase :=
  | HClosed       (* no goroutine of the label is between its two hooks *)
  | HOpen         (* [onAdd] was called, the forwarding loop runs *)
  | HQuiesced.    (* the forwarding loop is left, [onRemove] is due *)

Definition obs_label (o : obs) : string :=
  match o with
  | ObsAdd l | ObsForward l _ | ObsQuiesced l | ObsRemove l => l
  end.

Definition hook_step (L : string) (p : hook_phase) (o : obs)
  : option hook_phase :=
  if decide (obs_label o = L) then
    match p, o with
    | HClosed, ObsAdd _ => Some HOpen
    | HOpen, ObsForward _ _ => Some HOpen
    | HOpen, ObsQuiesced _ => Some HQuiesced
    | HQuiesced, ObsRemove _ => Some HClosed
    | _, _ => None
    end
  else Some p.

Definition hooks (L : string) (tr : list obs) : option hook_phase :=
  run (hook_step L) HClosed tr.

Definition pc_phase (p : fwd_pc) : hook_phase :=
  match p with
  | FStart | FClosing | FDone => HClosed
  | FRecv | FSend _ | FPanicked => HOpen
  | FDefer => HQuiesced
  end.

Definition label_phase (s : state) (L : string) : hook_phase :=
  match inputClosedChans s !! L with
  | Some k =>
      match forwarders s !! k with
      | Some f => pc_phase (fpc f)
      | None => HClosed
      end
  | None => HClosed
  end.

Definition hooks_ok (s : state) : Prop :=
  forall L, hooks L (trace s) = Some (label_phase s L).

Lemma hooks_ok_same s s' :
  inputClosedChans s' = inputClosedChans s ->
  forwarders s' = forwarders s -> trace s' = trace s ->
  hooks_ok s -> hooks_ok s'.
Proof.
  intros H1 H2 H3 Hok L. unfold label_phase. rewrite H1, H2, H3. apply Hok.
Qed.

Lemma hooks_ok_addInput L i s :
  inputs s !! L = None -> maps_ok s -> hooks_ok s ->
  hooks_ok (addInput L i s).
Proof.
  intros Hnone [Hd Hc Hl] Hok L'.
  assert (inputClosedChans s !! L = None) as Hnone'.
  { apply eq_None_not_Some. rewrite <- Hd. by rewrite Hnone; intros [? ?]. }
  specialize (Hok L'). unfold label_phase in *. simpl.
  destruct (decide (L = L')) as [<-|Hne].
  - rewrite lookup_insert_eq, list_lookup_middle by done. simpl.
    by rewrite Hnone' in Hok.
  - rewrite lookup_insert_ne by done.
    destruct (inputClosedChans s !! L') as [k|] eqn:Hk; [|done].
    destruct (Hc _ _ Hk) as (f & Hf & _).
    rewrite (lookup_app_l_Some _ _ _ _ Hf). by rewrite Hf in Hok.
Qed.

Lemma hooks_ok_forget L s :
  quiesced L s = true -> hooks_ok s -> hooks_ok (forget L s).
Proof.
  intros Hq Hok L'. specialize (Hok L'). unfold quiesced in Hq.
  unfold label_phase in *. simpl.
  destruct (decide (L = L')) as [<-|Hne].
  - rewrite lookup_delete_eq.
    destruct (inputClosedChans s !! L) as [k0|]; [|done].
    destruct (forwarders s !! k0) as [f0|]; [|done].
    apply bool_decide_eq_true in Hq. by rewrite Hq in Hok.
  - by rewrite lookup_delete_ne.
Qed.

Lemma hooks_ok_settle w s :
  inputs s !! Name w = None -> maps_ok s -> hooks_ok s ->
  hooks_ok (settle w s).
Proof.
  intros Hnone Hm Hok. unfold settle. destruct (Input w) as [i|].
  - apply (hooks_ok_same (addInput (Name w) i s)); [done..|].
    by apply hooks_ok_addInput.
  - by apply (hooks_ok_same s).
Qed.

Lemma fwd_step_hooks closed f e f' o L :
  fwd_step closed f e = Some (f', o) ->
  (ident f = L ->
   run (hook_step L) (pc_phase (fpc f)) o = Some (pc_phase (fpc f'))) /\
  (ident f <> L -> forall p, run (hook_step L) p o = Some p).
Proof.
  unfold fwd_step. intros H.
  destruct (fpc f), e; try done; repeat case_match; simplify_eq; simpl;
    unfold hook_step; simpl; (split; [intros Heq|intros Hne p]);
    rewrite ?decide_True by done; rewrite ?decide_False by done; done.
Qed.

Lemma hooks_ok_step s e s' :
  maps_ok s -> hooks_ok s -> step s e = Some s' -> hooks_ok s'.
Proof.
  intros Hm Hok Hstep. destruct e as [| |L i t|c e|e|k e]; simpl in Hstep.
  - destruct (running s); simplify_eq; [by apply (hooks_ok_same s) | done].
  - destruct (closePending s); simplify_eq. by apply (hooks_ok_same s).
  - simplify_eq. by apply (hooks_ok_same s).
  - destruct (callers s !! c) as [p|]; [|done]. simpl in Hstep.
    destruct (call_step _ p e) as [p'|]; [|done]. simpl in Hstep.
    simplify_eq. by apply (hooks_ok_same s).
  - unfold mgr_step in Hstep.
    destruct (mgr s) eqn:Em, e; try done; repeat case_match; simplify_eq;
      try done; try (by apply (hooks_ok_same s)).
    + apply hooks_ok_settle; [done| |].
      * by apply (maps_ok_same s).
      * by apply (hooks_ok_same s).
    + apply hooks_ok_settle; [by simpl; rewrite lookup_delete_eq| |].
      * by apply maps_ok_forget.
      * by apply hooks_ok_forget.
    + apply (hooks_ok_same (forget key s)); [done..|].
      by apply hooks_ok_forget.
  - destruct (forwarders s !! k) as [f|] eqn:Hk; [|done]. simpl in Hstep.
    destruct (fwd_step _ f e) as [[f' o]|] eqn:He; [|done]. simpl in Hstep.
    simplify_eq. destruct (fwd_step_ident _ _ _ _ _ He) as (Hid & Hin & Hlive).
    destruct Hm as [Hd Hc Hl]. pose proof (Hl _ _ Hk Hlive) as Hmap.
    intros L. specialize (Hok L). unfold hooks in *. simpl.
    rewrite run_app, Hok.
    destruct (fwd_step_hooks _ _ _ _ _ L He) as [Heq Hne].
    unfold label_phase in *. simpl.
    destruct (decide (ident f = L)) as [<-|Hdiff].
    + rewrite Hmap, Hk.
      rewrite list_lookup_insert_eq by (by eapply lookup_lt_Some).
      by apply Heq.
    + rewrite (Hne Hdiff).
      destruct (inputClosedChans s !! L) as [k'|] eqn:Hk'; [|done].
      destruct (Hc _ _ Hk') as (f0 & Hf0 & Hid0 & _).
      rewrite list_lookup_insert_ne; [done|]. intros ->. congruence.
Qed.

(** *** All of it, along every schedule *)

Record inv (s : state) : Prop := {
  inv_maps : maps_ok s;
  inv_ctl : ctl_ok s;
  inv_hooks : hooks_ok s
}.

Lemma inv_step s e s' : inv s -> step s e = Some s' -> inv s'.
Proof.
  intros [Hm Hc Hh] Hstep. split.
  - by eapply maps_ok_step.
  - by eapply ctl_ok_step.
  - by eapply hooks_ok_step.
Qed.

Lemma add_all_inputs l L :
  L ∉ l.*1 -> inputs (add_all l empty) !! L = None.
Proof.
  induction l as [|[L' i] l IH]; intros Hnot; simpl; [done|].
  apply not_elem_of_cons in Hnot as [Hne Hnot].
  rewrite lookup_insert_ne by done. by apply IH.
Qed.

Lemma add_all_ctl l : ctl_ok (add_all l empty) /\ mgr (add_all l empty) = GIdle.
Proof.
  induction l as [|[L i] l [[Hp Hc Ho Hg Hmc] Hm]]; simpl.
  - split; [by split | done].
  - split; [|done]. split; simpl; try done.
    unfold mgr_ok. simpl. by rewrite Hm.
Qed.

Lemma add_all_inv l : NoDup l.*1 -> inv (add_all l empty).
Proof.
  intros Hnd. split; [| apply add_all_ctl |].
  - induction l as [|[L i] l IH]; simpl; [apply maps_ok_empty|].
    apply NoDup_cons in Hnd as [Hnot Hnd].
    apply maps_ok_addInput; [by apply add_all_inputs | by apply IH].
  - induction l as [|[L i] l IH]; simpl.
    + intros L. unfold label_phase. simpl. by rewrite lookup_empty.
    + apply NoDup_cons in Hnd as [Hnot Hnd].
      apply hooks_ok_addInput; [by apply add_all_inputs | | by apply IH].
      clear IH. induction l as [|[L' i'] l IH]; simpl; [apply maps_ok_empty|].
      apply NoDup_cons in Hnd as [Hnot' Hnd].
      apply not_elem_of_cons in Hnot as [_ Hnot].
      apply maps_ok_addInput; [by apply add_all_inputs | by apply IH].
Qed.

Lemma inv_run initial evs s :
  run step (NewDynamicFanIn initial) evs = Some s -> inv s.
Proof.
  revert evs s. apply run_ind.
  - apply add_all_inv, NoDup_fst_map_to_list.
  - intros evs s e s' _ Hinv Hstep. by eapply inv_step.
Qed.

(** *** The merged channel *)

Lemma merged_closed_late initial evs s :
  run step (NewDynamicFanIn initial) evs = Some s ->
  mergedCloses s <= 1 /\
  (0 < mergedCloses s ->
   mgr s = GClosed /\ closeChan s = true /\ running s = false /\
   forall k f, forwarders s !! k = Some f -> fpc f = FDone).
Proof.
  intros [[Hd Hc Hl] [Hp Hcl Ho Hg Hmc] _]%inv_run.
  destruct (decide (mgr s = GClosed)) as [Hm|Hm]; [|lia].
  split; [lia|]. intros _. unfold mgr_ok in Hg. rewrite Hm in Hg.
  destruct Hg as [Hclose Hempty]. repeat split; auto.
  intros k f Hf. destruct (decide (fpc f = FDone)) as [|Hlive]; [done|].
  pose proof (Hl _ _ Hf Hlive) as Hk.
  assert (is_Some (inputs s !! ident f)) as [x Hx] by (apply Hd; eauto).
  rewrite Hempty in Hx. by rewrite lookup_empty in Hx.
Qed.

(** *** The hooks, cycle by cycle *)

#[global] Instance obs_eq_dec : EqDecision obs.
Proof. solve_decision. Defined.







(** *** What only the manager loop changes *)





(** *** A request caught by the close signal *)





(** *** A removal that timed out *)











(** *** Schedules *)

Definition final (evs : list event) : state :=
  default empty (run step (NewDynamicFanIn ∅) evs).

Definition hello : Transaction :=
  NewTransaction [mkPart "hello world" []] (ProducerChan 0).
















(** *** The rest of the broker's surface *)

Lemma never_panicked initial evs s :
  run step (NewDynamicFanIn initial) evs = Some s ->
  forall k f, forwarders s !! k = Some f -> fpc f <> FPanicked.
Proof.
  revert evs s.
  apply (run_ind step _
           (fun _ s => forall k f, forwarders s !! k = Some f ->
                                   fpc f <> FPanicked)).
  { intros k f Hk. unfold NewDynamicFanIn in Hk.
    induction (map_to_list initial) as [|[L i] l IH]; simpl in Hk.
    - by rewrite lookup_nil in Hk.
    - apply lookup_app_Some in Hk as [Hk|[_ Hk]]; [by apply IH|].
      apply list_lookup_singleton_Some in Hk as [_ <-]. done. }
  intros evs s e s' Hrun IH Hstep k f Hk.
  destruct e as [| |L i t|c e|e|k' e]; simpl in Hstep.
  - destruct (running s); simplify_eq/=; by eapply IH.
  - destruct (closePending s); simplify_eq/=; by eapply IH.
  - simplify_eq/=. by eapply IH.
  - destruct (callers s !! c) as [p|]; [|done]. simpl in Hstep.
    destruct (call_step _ p e) as [p'|]; [|done]. simplify_eq/=.
    by eapply IH.
  - unfold mgr_step, settle, shutdown in Hstep.
    destruct (mgr s), e; try done; repeat case_match; simplify_eq/=;
      try (by eapply IH).
    all: apply lookup_app_Some in Hk as [Hk|[_ Hk]]; [by eapply IH|].
    all: by apply list_lookup_singleton_Some in Hk as [_ <-].
  - destruct (forwarders s !! k') as [f0|] eqn:Hk0; [|done]. simpl in Hstep.
    destruct (fwd_step _ f0 e) as [[f' o]|] eqn:He; [|done]. simpl in Hstep.
    simplify_eq/=. destruct (decide (k' = k)) as [->|Hne].
    2:{ rewrite list_lookup_insert_ne in Hk by done. by eapply IH. }
    rewrite list_lookup_insert_eq in Hk by (by eapply lookup_lt_Some).
    simplify_eq. unfold fwd_step in He.
    destruct (fpc f0) eqn:Epc, e; try done; simplify_eq/=; try done.
    case_bool_decide as Hclosed; simplify_eq/=; [|done].
    destruct (merged_closed_late _ _ _ Hrun) as [_ Hlate].
    destruct (Hlate Hclosed) as (_ & _ & _ & Hdone).
    specialize (Hdone _ _ Hk0). congruence.
Qed.

(** No goroutine started by [addInput] ever sends on the closed merged
    channel: when [managerLoop] closes it, every goroutine has returned. *)
Theorem forwarders_never_send_on_closed initial evs s k f t :
  run step (NewDynamicFanIn initial) evs = Some s ->
  forwarders s !! k = Some f ->
  fpc f <> FPanicked /\ (fpc f = FSend t -> mergedCloses s = 0).
Proof.
  intros Hrun Hk. split; [by eapply never_panicked|].
  intros Hpc. destruct (merged_closed_late _ _ _ Hrun) as [_ Hlate].
  destruct (mergedCloses s) as [|n] eqn:Hm; [done|].
  destruct (Hlate ltac:(lia)) as (_ & _ & _ & Hdone).
  specialize (Hdone _ _ Hk). congruence.
Qed.

(** At any time at most one goroutine per label has not closed its done
    channel, and it forwards the input the map has under that label. *)
Theorem one_goroutine_per_label initial evs s k f k' f' :
  run step (NewDynamicFanIn initial) evs = Some s ->
  forwarders s !! k = Some f -> fpc f <> FDone ->
  forwarders s !! k' = Some f' -> fpc f' <> FDone ->
  ident f = ident f' ->
  k = k' /\ inputs s !! ident f = Some (fin f).
Proof.
  intros [[Hd Hc Hl] _ _]%inv_run Hk Hlive Hk' Hlive' Hid.
  pose proof (Hl _ _ Hk Hlive) as H1.
  pose proof (Hl _ _ Hk' Hlive') as H2. rewrite <- Hid in H2.
  split; [congruence|].
  destruct (Hc _ _ H1) as (f0 & Hf0 & _ & Hin). congruence.
Qed.

Lemma results_run initial evs s :
  run step (NewDynamicFanIn initial) evs = Some s ->
  (forall w err, mgr s = GReply w err -> err = None \/ err = Some ErrTimeout) /\
  (forall c err, callers s !! c = Some (CReturned err) ->
     err = None \/ err = Some ErrTimeout \/
     (err = Some ErrTypeClosed /\ running s = false)).
Proof.
  intros Hrun. pose proof Hrun as Hrun'. revert evs s Hrun Hrun'.
  apply (run_ind step _
    (fun evs s =>
       run step (NewDynamicFanIn initial) evs = Some s ->
       (forall w err, mgr s = GReply w err ->
          err = None \/ err = Some ErrTimeout) /\
       (forall c err, callers s !! c = Some (CReturned err) ->
          err = None \/ err = Some ErrTimeout \/
          (err = Some ErrTypeClosed /\ running s = false)))).
  { intros _. pose proof (add_all_ctl (map_to_list initial)) as [_ Hm].
    unfold NewDynamicFanIn. split.
    - intros w err. by rewrite Hm.
    - intros c err Hc. exfalso. clear Hm.
      induction (map_to_list initial) as [|[L i] l IH]; simpl in Hc;
        [by rewrite lookup_nil in Hc | by apply IH]. }
  intros evs s e s' Hrun IH Hstep _. destruct (IH Hrun) as [Hg Hc].
  pose proof (inv_run _ _ _ Hrun) as [_ [_ Hcl _ Hmgr _] _].
  clear IH. destruct e as [| |L i t|c e|e|k e]; simpl in Hstep.
  - destruct (running s) eqn:Hr; simplify_eq/=; (split; [done|]);
      intros c err Hce; destruct (Hc _ _ Hce) as [?|[?|[? ?]]]; auto.
  - destruct (closePending s); simplify_eq/=. by split.
  - simplify_eq/=. split; [done|]. intros c err Hce.
    apply lookup_app_Some in Hce as [Hce|[_ Hce]]; [by eapply Hc|].
    apply list_lookup_singleton_Some in Hce as [_ Hce].
    destruct (running s) eqn:Hr; simplify_eq. auto.
  - destruct (callers s !! c) as [p|] eqn:Hcp; [|done]. simpl in Hstep.
    destruct (call_step _ p e) as [p'|] eqn:Hcs; [|done]. simplify_eq/=.
    split; [done|]. intros c' err Hce.
    destruct (decide (c = c')) as [->|Hne].
    2:{ rewrite list_lookup_insert_ne in Hce by done. by eapply Hc. }
    rewrite list_lookup_insert_eq in Hce by (by eapply lookup_lt_Some).
    simplify_eq. unfold call_step in Hcs.
    destruct p as [w|[]|], e; simplify_eq/=; auto.
    destruct (closeChan s) eqn:Hclose; simplify_eq/=. auto.
  - unfold mgr_step, settle, shutdown in Hstep.
    destruct (mgr s) eqn:Em, e; try done;
      repeat case_match; simplify_eq/=;
      (split; [intros w' err' Hx; simplify_eq; auto; congruence|]);
      intros c' err' Hce;
      try (by eapply Hc).
    all: try (destruct (decide (c = c')) as [->|Hne];
              [rewrite list_lookup_insert_eq in Hce
                 by (by eapply lookup_lt_Some); by simplify_eq
              |rewrite list_lookup_insert_ne in Hce by done; by eapply Hc]).
    + destruct (decide (ResChan w = c')) as [<-|Hne].
      * rewrite list_lookup_insert_eq in Hce by (by eapply lookup_lt_Some).
        simplify_eq. destruct (Hg _ _ eq_refl) as [->| ->]; auto.
      * rewrite list_lookup_insert_ne in Hce by done. by eapply Hc.
    + destruct (decide (ResChan w = c')) as [<-|Hne].
      * rewrite list_lookup_alter_eq in Hce.
        destruct (callers s !! ResChan w); by simplify_eq/=.
      * rewrite list_lookup_alter_ne in Hce by done. by eapply Hc.
  - destruct (forwarders s !! k) as [f|]; [|done]. simpl in Hstep.
    destruct (fwd_step _ f e) as [[f' o]|]; [|done]. simplify_eq/=.
    by split.
Qed.

(** [SetInput] returns [nil], [ErrTimeout] or [ErrTypeClosed], and
    [ErrTypeClosed] only once [CloseAsync] has set [running] to 0. *)
Theorem set_input_results initial evs s c err :
  run step (NewDynamicFanIn initial) evs = Some s ->
  callers s !! c = Some (CReturned err) ->
  err = None \/ err = Some ErrTimeout \/
  (err = Some ErrTypeClosed /\ running s = false).
Proof. intros [_ Hc]%results_run. apply Hc. Qed.

Lemma closed_chan_run initial evs s :
  run step (NewDynamicFanIn initial) evs = Some s ->
  closedChan s = true -> mgr s = GClosed.
Proof.
  revert evs s.
  apply (run_ind step _ (fun _ s => closedChan s = true -> mgr s = GClosed)).
  { unfold NewDynamicFanIn.
    induction (map_to_list initial) as [|[L i] l IH]; simpl; done. }
  intros evs s e s' _ IH Hstep Hcl.
  destruct e as [| |L i t|c e|e|k e]; simpl in Hstep.
  - destruct (running s); simplify_eq/=; by apply IH.
  - destruct (closePending s); simplify_eq/=; by apply IH.
  - simplify_eq/=. by apply IH.
  - destruct (callers s !! c) as [p|]; [|done]. simpl in Hstep.
    destruct (call_step _ p e) as [p'|]; [|done]. simplify_eq/=.
    by apply IH.
  - unfold mgr_step, settle, shutdown in Hstep.
    destruct (mgr s) eqn:Em, e; try done;
      repeat case_match; simplify_eq/=; try done;
      by specialize (IH Hcl).
  - destruct (forwarders s !! k) as [f|]; [|done]. simpl in Hstep.
    destruct (fwd_step _ f e) as [[f' o]|]; [|done]. simplify_eq/=.
    by apply IH.
Qed.

(** The branch of the select of [WaitForClose] that fires. *)
Inductive wait_branch :=
  | ClosedFired     (* [<-d.closedChan] *)
  | TimerFired.     (* [<-time.After(timeout)] *)

Definition WaitForClose (s : state) (b : wait_branch) : option (option error) :=
  match b with
  | ClosedFired => if closedChan s then Some None else None
  | TimerFired => Some (Some ErrTimeout)
  end.

(** [WaitForClose] answers [nil] only when the shutdown of the manager
    loop is complete: both maps are empty, every goroutine started by
    [addInput] has closed its done channel, and the merged channel is
    closed; any other answer is [ErrTimeout]. *)
Theorem wait_for_close_after_shutdown initial evs s b res :
  run step (NewDynamicFanIn initial) evs = Some s ->
  WaitForClose s b = Some res ->
  (res = None /\ inputs s = ∅ /\ inputClosedChans s = ∅ /\
   mergedCloses s = 1 /\
   forall k f, forwarders s !! k = Some f -> fpc f = FDone) \/
  (res = Some ErrTimeout /\ b = TimerFired).
Proof.
  intros Hrun Hw. destruct b; simpl in Hw; [|simplify_eq; by right].
  destruct (closedChan s) eqn:Hc; [|done]. simplify_eq. left.
  pose proof (closed_chan_run _ _ _ Hrun Hc) as Hm.
  pose proof (inv_run _ _ _ Hrun) as [[Hd _ _] [_ _ _ Hg Hmc] _].
  unfold mgr_ok in Hg. rewrite Hm in Hg. destruct Hg as [_ Hempty].
  rewrite Hm in Hmc. rewrite decide_True in Hmc by done.
  split; [done|]. split; [done|]. split.
  - apply map_eq. intros L. rewrite lookup_empty.
    destruct (inputClosedChans s !! L) as [x|] eqn:Hx; [|done].
    assert (is_Some (inputs s !! L)) as [y Hy] by (apply Hd; eauto).
    rewrite Hempty in Hy. by rewrite lookup_empty in Hy.
  - split; [done|].
    destruct (merged_closed_late _ _ _ Hrun) as [_ Hlate].
    apply Hlate. lia.
Qed.

(** Input 1 is set under "a", forwards a transaction and closes; then
    shutdown. *)
Definition whole_life : list event :=
  [SetInput "a" (Some 1) 1000; Mgr (Accept 0); Mgr Deliver; Fwd 0 FOnAdd;
   Fwd 0 (FRecvTran hello); Fwd 0 FSent;
   CloseAsyncCAS; SetInput "b" (Some 2) 1000; CloseAsyncClose; Mgr SeeClose;
   Mgr (ShutPick "a"); Fwd 0 FRecvClosed; Fwd 0 FOnRemove; Fwd 0 FCloseDone;
   Mgr Removed; Mgr ShutFinish].

Definition after_whole_life : state := Eval vm_compute in final whole_life.

Definition forwarding : state := Eval vm_compute in final (take 5 whole_life).

Lemma forwarders_never_send_on_closed_witness :
  run step (NewDynamicFanIn ∅) (take 5 whole_life) = Some forwarding /\
  forwarders forwarding !! 0 = Some (mkFwd "a" 1 (FSend hello)) /\
  mergedCloses forwarding = 0.
Proof.
  split; [vm_compute; reflexivity|]. split; [reflexivity|].
  refine (proj2 (forwarders_never_send_on_closed ∅ (take 5 whole_life)
                   forwarding 0 (mkFwd "a" 1 (FSend hello)) hello _ _) _);
    vm_compute; reflexivity.
Defined.

Lemma one_goroutine_per_label_witness :
  inputs forwarding !! "a" = Some 1.
Proof.
  refine (proj2 (one_goroutine_per_label ∅ (take 5 whole_life) forwarding
                   0 (mkFwd "a" 1 (FSend hello))
                   0 (mkFwd "a" 1 (FSend hello)) _ _ _ _ _ _));
    try (vm_compute; reflexivity); done.
Defined.

Lemma set_input_results_witness :
  run step (NewDynamicFanIn ∅) whole_life = Some after_whole_life /\
  callers after_whole_life !! 1 = Some (CReturned (Some ErrTypeClosed)) /\
  running after_whole_life = false.
Proof.
  split; [vm_compute; reflexivity|]. split; [reflexivity|].
  destruct (set_input_results ∅ whole_life after_whole_life 1
              (Some ErrTypeClosed)) as [H|[H|[_ H]]];
    try (vm_compute; reflexivity); done.
Defined.

Lemma wait_for_close_after_shutdown_witness :
  WaitForClose after_whole_life ClosedFired = Some None /\
  inputs after_whole_life = ∅ /\
  forall k f, forwarders after_whole_life !! k = Some f -> fpc f = FDone.
Proof.
  split; [reflexivity|].
  destruct (wait_for_close_after_shutdown ∅ whole_life after_whole_life
              ClosedFired None) as [(_ & H1 & _ & _ & H2)|(H & _)];
    [vm_compute; reflexivity | reflexivity | by split | done].
Defined.

End DynamicFanIn.

(** * The contract of the brokers *)

(** C1, as the code has it.  A broker writes at most one value to the
    AckSink of a transaction it took.  A transaction FanOutSequential is
    finished with has exactly one, [nil], as long as [CloseAsync] has not
    cancelled the context of the broker.  A transaction whose Retry
    goroutine has returned has exactly one, [nil] or the send-failed
    error, as long as the context of [Retry.loop] is not cancelled; that
    context is cancelled by [CloseAsync] and by the return of [loop] on
    the closed inbound channel, and until then no transaction taken is
    dropped.  RoundRobin writes none itself: each hand-over to an output
    is of one inbound transaction of its own, AckSink included. *)
Theorem brokers_ack_at_most_once
    (n m : nat) (evs : list FanOutSequential.event) (s : FanOutSequential.state)
    (k : nat) (w : FanOutSequential.sendloop) (r : FanOutSequential.txrec)
    {B : Type} (backoffCtor : B) (NextBackOff : B -> option Z * B)
    (evs' : list Retry.event) (s' : Retry.state) (k' : nat)
    (w' : Retry.worker)
    (N : nat) (evs'' : list RoundRobin.event) (s'' : RoundRobin.state) :
  run FanOutSequential.step (FanOutSequential.started n m) evs = Some s ->
  FanOutSequential.loops s !! k = Some w ->
  r ∈ FanOutSequential.taken w ->
  run (Retry.step backoffCtor NextBackOff) Retry.started evs' = Some s' ->
  Retry.workers s' !! k' = Some w' ->
  1 <= N ->
  run RoundRobin.step (RoundRobin.NewRoundRobin N) evs'' = Some s'' ->
  (length (FanOutSequential.ack_values (FanOutSequential.tx_log r)) <= 1 /\
   (FanOutSequential.cancelled s = false ->
    r ∈ FanOutSequential.past w ->
    FanOutSequential.ack_values (FanOutSequential.tx_log r) = [None])) /\
  (length (Retry.acked w') <= 1 /\
   (Retry.ctx_done s' = false ->
    Retry.dropped s' = [] /\
    (Retry.wpc w' = Retry.WDone ->
     Retry.acked w' = [None] \/
     Retry.acked w' = [Some Retry.send_failed]))) /\
  (forall i out j ts,
     RoundRobin.outputTSChans s'' !! i = Some out -> out !! j = Some ts ->
     i < N /\ RoundRobin.inbound evs'' !! (j * N + i) = Some ts).
Proof.
  intros Hfos Hk Hr Hretry Hk' HN Hrr. split; [|split].
  - by eapply FanOutSequential.fan_out_sequential_acks.
  - pose proof (Retry.retry_ok_run _ _ _ _ Hretry) as [Hw _ _ Hd].
    pose proof (Forall_lookup_1 _ _ _ _ Hw Hk') as [_ _ Ha].
    split.
    + destruct (Retry.wpc w');
        match type of Ha with
        | _ \/ _ => destruct Ha as [Ha|[Ha|[_ Ha]]]
        | _ /\ _ => destruct Ha as [Ha _]
        | _ => idtac
        end;
        rewrite Ha; simpl; lia.
    + intros Hopen. split.
      * destruct (Retry.dropped s') as [|t l] eqn:Hdr; [done|].
        rewrite (Retry.close_ctx_done s') in Hopen; [done|].
        by apply Hd.
      * intros Hdone. rewrite Hdone in Ha.
        destruct Ha as [Ha|[Ha|[Hc _]]]; [by left | by right | congruence].
  - intros i out j ts Hi Hj.
    destruct (RoundRobin.loop_inv_run N HN _ _ Hrr)
      as [_ _ [Hlen _ [q [_ Hout]]]].
    split; [apply lookup_lt_Some in Hi; lia|].
    destruct (Hout _ _ Hi) as [_ Hfwd]. specialize (Hfwd _ _ Hj).
    unfold RoundRobin.forwarded in Hfwd.
    by apply lookup_take_Some in Hfwd as [? _].
Qed.


Lemma brokers_ack_at_most_once_witness :
  FanOutSequential.ack_values
    (FanOutSequential.tx_log FanOutSequential.record_of_tx0) = [None] /\
  Retry.acked Retry.worker_after_send_failed = [Some Retry.send_failed] /\
  (Retry.acked Retry.worker_after_send_failed = [None] \/
   Retry.acked Retry.worker_after_send_failed = [Some Retry.send_failed]).
Proof.
  destruct (brokers_ack_at_most_once 2 1
              FanOutSequential.refused_once FanOutSequential.after_refused_once
              0 FanOutSequential.loop_of_tx0 FanOutSequential.record_of_tx0
              Retry.policy1 Retry.next_interval
              (Retry.refused_twice ++ [Retry.Worker 0 Retry.WAckDelivered])
              Retry.after_send_failed 0 Retry.worker_after_send_failed
              2 RoundRobin.three_in RoundRobin.after_three_in)
    as ((_ & Hfos) & (_ & Hretry) & _);
    try (vm_compute; reflexivity); try lia.
  { vm_compute. apply list_elem_of_here. }
  split; [apply Hfos; [reflexivity | vm_compute; apply list_elem_of_here]|].
  split; [reflexivity|].
  by apply Hretry.
Defined.

